(** * Hardhat v-next core: global parameters and hook dispatch

    A shallow embedding of
      - [src/internal/global-parameters.ts]: [buildGlobalParametersMap],
        [buildGlobalParameterDefinition] and [resolveGlobalArguments];
      - [src/types/global-parameters.ts]: the types they work on;
      - the hook manager exercised by [test/internal/hook-manager.ts].

    Thrown [HardhatError]s are the [Throw] results of an error monad, a JS
    [Map] is an insertion-ordered association list with unique keys, the
    user's arguments are an object with own properties and the members it
    inherits from its prototype, the arguments returned are the own
    properties of an object, and asynchronous handlers are computations over
    an explicit world state. *)

From Stdlib Require Import Floats.PrimFloat Ascii.
From stdpp Require Import gmap strings list.

Local Open Scope string_scope.
Local Open Scope list_scope.

(** ** [types/common.js] *)

(** Modelled from the spec: the declaration of [ParameterType] lives in
    [types/common.js]; the specification lists these variants. *)
Inductive ParameterType : Type :=
  | STRING | BOOLEAN | INT | BIGINT | FLOAT | FILE.

(** Modelled from the spec: [ParameterValue], the native values the
    parameter types range over (JS string, boolean, number and bigint).  A
    JS number is a binary64 float. *)
Inductive ParameterValue : Type :=
  | VString (s : string)
  | VBoolean (b : bool)
  | VNumber (x : float)
  | VBigint (z : Z).

#[global] Instance ParameterType_eq_dec : EqDecision ParameterType.
Proof. solve_decision. Defined.

(** ** [HardhatError] and the error monad *)

(** The four error descriptors thrown by [global-parameters.ts], each with
    the fields of its message arguments.  The [type] of
    [INVALID_VALUE_FOR_TYPE] is optional because
    [buildGlobalParameterDefinition] passes its [parameterType] argument,
    which may be [undefined]. *)
Inductive HardhatError : Type :=
  | GLOBAL_PARAMETER_ALREADY_DEFINED
      (plugin globalParameter definedByPlugin : string)
  | INVALID_NAME (name : string)
  | RESERVED_NAME (name : string)
  | INVALID_VALUE_FOR_TYPE
      (value : ParameterValue) (name : string) (type : option ParameterType).

Inductive Result (A : Type) : Type :=
  | Ok (a : A)
  | Throw (e : HardhatError).
Arguments Ok {A} a.
Arguments Throw {A} e.

#[global] Instance Result_ret : MRet Result := fun _ a => Ok a.
#[global] Instance Result_bind : MBind Result := fun _ _ k r =>
  match r with
  | Ok a => k a
  | Throw e => Throw e
  end.

(** ** JS [Map]: insertion-ordered, one entry per key *)

Abbreviation JsMap V := (list (string * V)).

Fixpoint Map_get {V} (m : JsMap V) (key : string) : option V :=
  match m with
  | [] => None
  | (k, v) :: rest => if decide (k = key) then Some v else Map_get rest key
  end.

(** [Map.prototype.set]: an existing key keeps its position, a new key is
    appended. *)
Fixpoint Map_set {V} (m : JsMap V) (key : string) (value : V) : JsMap V :=
  match m with
  | [] => [(key, value)]
  | (k, v) :: rest =>
      if decide (k = key) then (key, value) :: rest
      else (k, v) :: Map_set rest key value
  end.

Definition Map_keys {V} (m : JsMap V) : list string := m.*1.

(** ** [types/global-parameters.ts] *)

Module GlobalParameter.
Record t : Type := mk {
  name : string;
  description : string;
  parameterType : ParameterType;
  defaultValue : ParameterValue;
}.
End GlobalParameter.

Module GlobalParametersMapEntry.
Record t : Type := mk {
  pluginId : string;
  param : GlobalParameter.t;
}.
End GlobalParametersMapEntry.

Abbreviation GlobalParametersMap := (JsMap GlobalParametersMapEntry.t).

(** The user's arguments are a JS object, read by
    [userProvidedGlobalArguments[name]]: the read gives the string of an own
    property, or else the member of that name which the object inherits from
    its prototype, or else [undefined]. *)
Inductive RawValue : Type :=
  | RawString (value : string)
  | RawMember (member : string).

Module UserProvidedGlobalArguments.
Record t : Type := mk {
  own : gmap string string;
  inherited : gset string;
}.
End UserProvidedGlobalArguments.

(** The members every object literal inherits from [Object.prototype]. *)
Definition Object_prototype : gset string :=
  {[ "constructor"; "hasOwnProperty"; "isPrototypeOf"; "propertyIsEnumerable";
     "toLocaleString"; "toString"; "valueOf"; "__proto__";
     "__defineGetter__"; "__defineSetter__";
     "__lookupGetter__"; "__lookupSetter__" ]}.

(** [{ name: value, ... }] *)
Definition objectLiteral (own : gmap string string)
  : UserProvidedGlobalArguments.t :=
  UserProvidedGlobalArguments.mk own Object_prototype.

(** A call to [parseParameterValue] on a value that is not a string is
    outside its declared type: it may return a value that is no
    [ParameterValue], and may throw what is no [HardhatError] with typed
    arguments.  [Other] stands for such values. *)
Inductive JsValue (Other : Type) : Type :=
  | Typed (value : ParameterValue)
  | Untyped (other : Other).
Arguments Typed {Other} value.
Arguments Untyped {Other} other.

Inductive JsThrown (Other : Type) : Type :=
  | HardhatThrown (e : HardhatError)
  | OtherThrown (other : Other).
Arguments HardhatThrown {Other} e.
Arguments OtherThrown {Other} other.

Inductive Completion (Other A : Type) : Type :=
  | Returns (a : A)
  | Throws (thrown : JsThrown Other).
Arguments Returns {Other A} a.
Arguments Throws {Other A} thrown.

#[global] Instance Completion_ret {Other} : MRet (Completion Other) :=
  fun _ a => Returns a.
#[global] Instance Completion_bind {Other} : MBind (Completion Other) :=
  fun _ _ k c =>
    match c with
    | Returns a => k a
    | Throws thrown => Throws thrown
    end.

(** [GlobalArguments extends Record<string, ParameterValue>]: the own
    properties of the object that [resolveGlobalArguments] fills. *)
Abbreviation GlobalArguments Other := (gmap string (JsValue Other)).
(** [process.env]: the variables, by name.  It is read at names that start
    with [HARDHAT_] only. *)
Abbreviation ProcessEnv := (gmap string string).

(** The destructured argument of [buildGlobalParameterDefinition]:
    [parameterType] is optional.  The elements of a plugin's
    [globalParameters] are passed to it unchanged. *)
Module ParameterOptions.
Record t : Type := mk {
  name : string;
  description : string;
  parameterType : option ParameterType;
  defaultValue : ParameterValue;
}.
End ParameterOptions.

(** The two fields of [HardhatPlugin] read by [buildGlobalParametersMap]. *)
Module HardhatPlugin.
Record t : Type := mk {
  id : string;
  globalParameters : option (list ParameterOptions.t);
}.
End HardhatPlugin.

(** ** The imports of [global-parameters.ts]

    [./parameters.js] is not among the sources: its exports are taken as an
    interface. [parseRule] is the per-type parsing rule behind
    [parseParameterValue]. *)
Class ParametersJs : Type := {
  RESERVED_PARAMETER_NAMES : gset string;
  isParameterValueValid : ParameterType → ParameterValue → bool;
  isValidParamNameCasing : string → bool;
  parseRule : ParameterType → string → option ParameterValue;
}.

(** Modelled from the spec: [parseParameterValue] of [./parameters.js],
    which "fails with InvalidValueForType when raw cannot be losslessly
    parsed as type", the error "carrying the offending value, the type, and
    the parameter name". *)
Definition parseParameterValue `{ParametersJs}
    (strValue : string) (type : ParameterType) (name : string)
  : Result ParameterValue :=
  match parseRule type strValue with
  | Some v => Ok v
  | None => Throw (INVALID_VALUE_FOR_TYPE (VString strValue) name (Some type))
  end.

(** [String.prototype.toUpperCase] on the ASCII range. *)
Definition upperAscii (c : Ascii.ascii) : Ascii.ascii :=
  let n := Ascii.nat_of_ascii c in
  if (97 <=? n)%nat && (n <=? 122)%nat then Ascii.ascii_of_nat (n - 32) else c.

Fixpoint toUpperCase (s : string) : string :=
  match s with
  | EmptyString => EmptyString
  | String c rest => String (upperAscii c) (toUpperCase rest)
  end.

(** ** [internal/global-parameters.ts] *)

Section GlobalParameters.
Context `{ParametersJs}.
(** [camelToSnakeCase] of [@nomicfoundation/hardhat-utils/string]. *)
Variable camelToSnakeCase : string → string.

Definition buildGlobalParameterDefinition (options : ParameterOptions.t)
  : Result GlobalParameter.t :=
  let name := ParameterOptions.name options in
  let description := ParameterOptions.description options in
  let parameterType := ParameterOptions.parameterType options in
  let defaultValue := ParameterOptions.defaultValue options in
  let type := default STRING parameterType in
  if negb (isValidParamNameCasing name) then Throw (INVALID_NAME name)
  else if decide (name ∈ RESERVED_PARAMETER_NAMES)
  then Throw (RESERVED_NAME name)
  else if negb (isParameterValueValid type defaultValue)
  then Throw (INVALID_VALUE_FOR_TYPE defaultValue "defaultValue" parameterType)
  else Ok (GlobalParameter.mk name description type defaultValue).

(** The inner loop of [buildGlobalParametersMap], over the parameters of
    one plugin. *)
Fixpoint addGlobalParameters (pluginId : string)
    (params : list ParameterOptions.t) (globalParametersMap : GlobalParametersMap)
  : Result GlobalParametersMap :=
  match params with
  | [] => Ok globalParametersMap
  | param :: rest =>
      match Map_get globalParametersMap (ParameterOptions.name param) with
      | Some existingByName =>
          Throw (GLOBAL_PARAMETER_ALREADY_DEFINED
                   pluginId
                   (ParameterOptions.name param)
                   (GlobalParametersMapEntry.pluginId existingByName))
      | None =>
          validatedGlobalParam ← buildGlobalParameterDefinition param;
          let mapEntry :=
            GlobalParametersMapEntry.mk pluginId validatedGlobalParam in
          addGlobalParameters pluginId rest
            (Map_set globalParametersMap
               (GlobalParameter.name validatedGlobalParam) mapEntry)
      end
  end.

(** The outer loop, over the plugins. *)
Fixpoint addPlugins (resolvedPlugins : list HardhatPlugin.t)
    (globalParametersMap : GlobalParametersMap) : Result GlobalParametersMap :=
  match resolvedPlugins with
  | [] => Ok globalParametersMap
  | plugin :: rest =>
      match HardhatPlugin.globalParameters plugin with
      | None => addPlugins rest globalParametersMap
      | Some params =>
          globalParametersMap' ←
            addGlobalParameters (HardhatPlugin.id plugin) params
              globalParametersMap;
          addPlugins rest globalParametersMap'
      end
  end.

Definition buildGlobalParametersMap (resolvedPlugins : list HardhatPlugin.t)
  : Result GlobalParametersMap :=
  addPlugins resolvedPlugins [].

Definition envVariableName (name : string) : string :=
  "HARDHAT_" +:+ toUpperCase (camelToSnakeCase name).

(** What [parseParameterValue] does with an inherited member: [member] is
    the name under which the prototype holds it, then the type and the name
    of the parameter.  [./parameters.js] is not among the sources. *)
Context {Other : Type}.
Variable parseInherited :
  string → ParameterType → string → Completion Other (JsValue Other).

(** [userProvidedGlobalArguments[name]], [None] for [undefined]. *)
Definition readProperty
    (userProvidedGlobalArguments : UserProvidedGlobalArguments.t)
    (name : string) : option RawValue :=
  match UserProvidedGlobalArguments.own userProvidedGlobalArguments !! name with
  | Some value => Some (RawString value)
  | None =>
      if decide (name ∈ UserProvidedGlobalArguments.inherited
                          userProvidedGlobalArguments)
      then Some (RawMember name)
      else None
  end.

(** The value handed to [parseParameterValue] for one parameter: what the
    read of the user's object gives, and the environment variable only when
    that read gives [undefined]. *)
Definition rawValue (env : ProcessEnv)
    (userProvidedGlobalArguments : UserProvidedGlobalArguments.t)
    (name : string) : option RawValue :=
  match readProperty userProvidedGlobalArguments name with
  | Some value => Some value
  | None => RawString <$> env !! envVariableName name
  end.

(** [parseParameterValue(value, param.parameterType, name)] *)
Definition parseRawValue (value : RawValue) (type : ParameterType)
    (name : string) : Completion Other (JsValue Other) :=
  match value with
  | RawString strValue =>
      match parseParameterValue strValue type name with
      | Ok v => Returns (Typed v)
      | Throw e => Throws (HardhatThrown e)
      end
  | RawMember member => parseInherited member type name
  end.

Definition resolveEntry (env : ProcessEnv)
    (userProvidedGlobalArguments : UserProvidedGlobalArguments.t)
    (name : string) (param : GlobalParameter.t)
  : Completion Other (JsValue Other) :=
  match rawValue env userProvidedGlobalArguments name with
  | Some value => parseRawValue value (GlobalParameter.parameterType param) name
  | None => Returns (Typed (GlobalParameter.defaultValue param))
  end.

(** [globalArguments[name] = parsedValue] on an object literal: an own
    property is created or replaced, except under the name [__proto__], which
    the prototype holds as an accessor: its setter never creates an own
    property. *)
Definition setArgument (globalArguments : GlobalArguments Other)
    (name : string) (parsedValue : JsValue Other) : GlobalArguments Other :=
  if decide (name = "__proto__") then globalArguments
  else <[name := parsedValue]> globalArguments.

(** The loop of [resolveGlobalArguments] over the entries of the map, in
    insertion order. *)
Fixpoint resolveEntries (env : ProcessEnv)
    (userProvidedGlobalArguments : UserProvidedGlobalArguments.t)
    (entries : GlobalParametersMap) (globalArguments : GlobalArguments Other)
  : Completion Other (GlobalArguments Other) :=
  match entries with
  | [] => Returns globalArguments
  | (name, entry) :: rest =>
      parsedValue ←
        resolveEntry env userProvidedGlobalArguments name
          (GlobalParametersMapEntry.param entry);
      resolveEntries env userProvidedGlobalArguments rest
        (setArgument globalArguments name parsedValue)
  end.

(** [process.env] is read by the function; here it is its first argument. *)
Definition resolveGlobalArguments (env : ProcessEnv)
    (userProvidedGlobalArguments : UserProvidedGlobalArguments.t)
    (globalParametersMap : GlobalParametersMap)
  : Completion Other (GlobalArguments Other) :=
  resolveEntries env userProvidedGlobalArguments globalParametersMap ∅.

(** The names of the map went through the two checks on names. *)
Definition namesAccepted (m : GlobalParametersMap) : Prop :=
  ∀ name entry, Map_get m name = Some entry →
    isValidParamNameCasing name = true ∧ name ∉ RESERVED_PARAMETER_NAMES.
End GlobalParameters.

(** ** The declarations of a plugin list

    What the two loops of [buildGlobalParametersMap] go through, as one
    list. *)

(** A built definition used as an argument of
    [buildGlobalParameterDefinition] again; the test-suite lists built
    definitions in the [globalParameters] of its plugins. *)
Definition toOptions (g : GlobalParameter.t) : ParameterOptions.t :=
  ParameterOptions.mk (GlobalParameter.name g) (GlobalParameter.description g)
    (Some (GlobalParameter.parameterType g)) (GlobalParameter.defaultValue g).

(** The parameters of the plugins, each with the id of its plugin, in the
    order in which the loops meet them. *)
Definition declarations (resolvedPlugins : list HardhatPlugin.t)
  : list (string * ParameterOptions.t) :=
  plugin ← resolvedPlugins;
  pair (HardhatPlugin.id plugin)
    <$> default [] (HardhatPlugin.globalParameters plugin).

Definition declaredName (declaration : string * ParameterOptions.t) : string :=
  ParameterOptions.name declaration.2.

(** The entry under which an accepted declaration is stored: the key is the
    name, [pluginId] the declaring plugin, and the definition has the
    declared type, or STRING. *)
Definition entryOf (declaration : string * ParameterOptions.t)
  : string * GlobalParametersMapEntry.t :=
  let p := declaration.2 in
  (ParameterOptions.name p,
   GlobalParametersMapEntry.mk declaration.1
     (GlobalParameter.mk (ParameterOptions.name p) (ParameterOptions.description p)
        (default STRING (ParameterOptions.parameterType p))
        (ParameterOptions.defaultValue p))).

Section Declarations.
Context `{ParametersJs}.

(** The body of the inner loop of [buildGlobalParametersMap], run over a
    list of declarations. *)
Fixpoint addDeclarations (pending : list (string * ParameterOptions.t))
    (globalParametersMap : GlobalParametersMap) : Result GlobalParametersMap :=
  match pending with
  | [] => Ok globalParametersMap
  | (pluginId, param) :: rest =>
      match Map_get globalParametersMap (ParameterOptions.name param) with
      | Some existingByName =>
          Throw (GLOBAL_PARAMETER_ALREADY_DEFINED
                   pluginId
                   (ParameterOptions.name param)
                   (GlobalParametersMapEntry.pluginId existingByName))
      | None =>
          validatedGlobalParam ← buildGlobalParameterDefinition param;
          let mapEntry :=
            GlobalParametersMapEntry.mk pluginId validatedGlobalParam in
          addDeclarations rest
            (Map_set globalParametersMap
               (GlobalParameter.name validatedGlobalParam) mapEntry)
      end
  end.

(** [buildGlobalParameterDefinition] returns a definition. *)
Definition accepted (param : ParameterOptions.t) : Prop :=
  ∃ g, buildGlobalParameterDefinition param = Ok g.
End Declarations.

(** ** The hook manager

    [HookManagerImplementation] ([src/internal/hook-manager.ts]) is not among
    the sources, only its test-suite is.  The manager is modelled from the
    specification.  An asynchronous function is a computation over the state
    of the world it acts on, which returns a value or raises. *)

Inductive Outcome (Exn A : Type) : Type :=
  | Returned (a : A)
  | Raised (e : Exn).
Arguments Returned {Exn A} a.
Arguments Raised {Exn A} e.

Definition Async (World Exn A : Type) : Type := World → Outcome Exn A * World.

#[global] Instance Async_ret {World Exn} : MRet (Async World Exn) :=
  λ _ a w, (Returned a, w).
#[global] Instance Async_bind {World Exn} : MBind (Async World Exn) :=
  λ _ _ k c w,
    match c w with
    | (Returned a, w') => k a w'
    | (Raised e, w') => (Raised e, w')
    end.

(** The [next] of a chained handler, and the default implementation of a
    chain. *)
Abbreviation Continuation Value World Exn :=
  (list Value → Async World Exn Value).

(** A handler is applied to the spread arguments, followed in chain dispatch
    by the [next] continuation and by nothing otherwise. *)
Abbreviation Handler Value World Exn :=
  (list Value → option (Continuation Value World Exn) → Async World Exn Value).

Section HookManager.
(** JS values (the hook context is one of them), the world the handlers
    act on, and what they may throw. *)
Context {Value World Exn : Type}.

#[local] Abbreviation Continuation := (Continuation Value World Exn).
#[local] Abbreviation Handler := (Handler Value World Exn).

(** Modelled from the spec: the state of the hook manager, "for a given
    (category, hookName) pair, an ordered sequence of handler functions
    [...] in plugin-registration order", and the "single HookContext [...]
    threaded unchanged into every non-config hook invocation". *)
Record HookManager : Type := mkHookManager {
  context : Value;
  handlerSets : gmap (string * string) (list Handler);
}.

(** Modelled from the spec: the handler set of a pair, empty until the
    first registration for that pair. *)
Definition handlerSet (manager : HookManager) (category hookName : string)
  : list Handler :=
  default [] (handlerSets manager !! (category, hookName)).

(** Modelled from the spec: registration appends to the handler set of the
    pair, "created lazily on first registration for that pair". *)
Definition registerHandler (manager : HookManager)
    (category hookName : string) (handler : Handler) : HookManager :=
  {| context := context manager;
     handlerSets :=
       <[(category, hookName) := handlerSet manager category hookName ++ [handler]]>
         (handlerSets manager) |}.

(** Modelled from the spec: [registerHandlers(category, { hookName:
    handler, ... })], as the test-suite calls it. *)
Definition registerHandlers (manager : HookManager) (category : string)
    (hookHandlerCategory : list (string * Handler)) : HookManager :=
  foldl (λ manager '(hookName, handler),
           registerHandler manager category hookName handler)
    manager hookHandlerCategory.

(** Modelled from the spec: dispatch goes through the handlers in "reverse
    registration order", "most recent plugin first". *)
Definition getHandlers (manager : HookManager) (category hookName : string)
  : list Handler :=
  reverse (handlerSet manager category hookName).

(** Modelled from the spec: "for hook categories other than the
    distinguished config category, every handler and the default
    implementation additionally receive a shared mutable HookContext as
    their first argument, prepended to args; for the config category, no
    context is prepended". *)
Definition handlerParams (manager : HookManager) (category : string)
    (params : list Value) : list Value :=
  if decide (category = "config") then params else context manager :: params.

(** Modelled from the spec: [runHandlerChain] "builds a single composed
    function by folding the handler list such that the most recently
    registered handler runs outermost [...], each handler receiving the
    remaining arguments plus a next continuation that invokes the next-inner
    handler (or, for the innermost handler, the supplied
    defaultImplementation)": "a right-fold over the reversed handler
    list". *)
Definition runHandlerChain (manager : HookManager)
    (category hookName : string) (params : list Value)
    (defaultImplementation : Continuation) : Async World Exn Value :=
  foldr (λ (handler : Handler) (next : Continuation),
           λ nextParams, handler nextParams (Some next))
    defaultImplementation
    (getHandlers manager category hookName)
    (handlerParams manager category params).

(** Modelled from the spec: "each invocation must complete (be awaited)
    before the next begins". *)
Fixpoint callInTurn (handlers : list Handler) (handlerParams : list Value)
  : Async World Exn (list Value) :=
  match handlers with
  | [] => mret []
  | handler :: rest =>
      result ← handler handlerParams None;
      results ← callInTurn rest handlerParams;
      mret (result :: results)
  end.

(** Modelled from the spec: [runSequentialHandlers] "invokes every
    registered handler, one at a time in the same reverse-registration
    order [...], each call using the same original args [...]; collects
    each handler's return value into a result list in call order". *)
Definition runSequentialHandlers (manager : HookManager)
    (category hookName : string) (params : list Value)
  : Async World Exn (list Value) :=
  callInTurn (getHandlers manager category hookName)
    (handlerParams manager category params).

(** Modelled from the spec: the calls of a parallel dispatch take effect in
    an order the dispatcher does not choose; [completionOrder] lists the
    positions of the handlers in that order.  The result of the handler at
    position [i] is stored at position [i] of [results], "since callers key
    results positionally". *)
Fixpoint settle (handlers : list Handler) (handlerParams : list Value)
    (completionOrder : list nat) (results : list (option Value))
  : Async World Exn (list (option Value)) :=
  match completionOrder with
  | [] => mret results
  | i :: later =>
      match handlers !! i with
      | Some handler =>
          result ← handler handlerParams None;
          settle handlers handlerParams later (<[i := Some result]> results)
      | None => settle handlers handlerParams later results
      end
  end.

(** Modelled from the spec: [runParallelHandlers] "invokes every
    registered handler concurrently with the same arguments and
    context-prepending rule as sequential dispatch, but does not impose an
    ordering guarantee on execution"; "a throwing handler [...] causes the
    aggregate call to fail".  A handler is one step of the world here, and
    the schedule is a parameter. *)
Definition runParallelHandlers (manager : HookManager)
    (category hookName : string) (params : list Value)
    (completionOrder : list nat) : Async World Exn (list Value) :=
  let handlers := getHandlers manager category hookName in
  results ←
    settle handlers (handlerParams manager category params) completionOrder
      (replicate (length handlers) None);
  mret (omap id results).

(** A handler whose answer at [handlerParams] is the same in every world
    and which never throws there. *)
Definition answers (handlerParams : list Value) (handler : Handler)
    (result : Value) : Prop :=
  ∀ w, (handler handlerParams None w).1 = Returned result.

(** [result] is what some call of the handler at [handlerParams]
    returned. *)
Definition returnedBy (handlerParams : list Value) (handler : Handler)
    (result : Value) : Prop :=
  ∃ w, (handler handlerParams None w).1 = Returned result.
End HookManager.

Arguments HookManager : clear implicits.

(** ** Handlers that record what they see

    The handlers of [test/internal/hook-manager.ts] push labels on a
    [sequence] array; here the world is that array, and an entry also keeps
    the arguments the handler received. *)
Section Recording.
Context {Value Exn : Type}.
(** What calling an absent [next] throws. *)
Variable notAFunction : Exn.

Inductive Event : Type :=
  | Entered (label : string) (args : list Value)
  | DefaultRan (args : list Value)
  | Exited (label : string).

Definition push (e : Event) : Async (list Event) Exn unit :=
  λ sequence, (Returned (), sequence ++ [e]).

Definition callNext (next : option (Continuation Value (list Event) Exn))
    (args : list Value) : Async (list Event) Exn Value :=
  match next with
  | Some k => k args
  | None => λ sequence, (Raised notAFunction, sequence)
  end.

(** [sequence.push("label:before"); const r = await next(config);
    sequence.push("label:after"); return r;] *)
Definition around (label : string) : Handler Value (list Event) Exn :=
  λ args next,
    push (Entered label args);;
    result ← callNext next args;
    push (Exited label);;
    mret result.

(** A handler of a sequential or parallel hook, which takes no [next]. *)
Definition reporting (label : string) (result : Value)
  : Handler Value (list Event) Exn :=
  λ args _, push (Entered label args);; mret result.

(** [sequence.push("default"); return result;] *)
Definition recordingDefault (result : Value)
  : Continuation Value (list Event) Exn :=
  λ args, push (DefaultRan args);; mret result.

(** The arguments an entry of the sequence saw, if it saw any. *)
Definition received (expected : list Value) (e : Event) : Prop :=
  match e with
  | Entered _ args | DefaultRan args => args = expected
  | Exited _ => True
  end.
End Recording.

(** ** The inputs of the test-suite

    A concrete [./parameters.js] and the plugin descriptors of
    [test/internal/global-parameters.ts], on which the development is run. *)
Module TestSuite.
Definition isLower (c : Ascii.ascii) : bool :=
  let n := Ascii.nat_of_ascii c in (97 <=? n)%nat && (n <=? 122)%nat.
Definition isUpper (c : Ascii.ascii) : bool :=
  let n := Ascii.nat_of_ascii c in (65 <=? n)%nat && (n <=? 90)%nat.
Definition isDigit (c : Ascii.ascii) : bool :=
  let n := Ascii.nat_of_ascii c in (48 <=? n)%nat && (n <=? 57)%nat.

Fixpoint allChars (p : Ascii.ascii → bool) (s : string) : bool :=
  match s with
  | EmptyString => true
  | String c rest => p c && allChars p rest
  end.

(** Modelled from the spec: "name matches a canonical lower-camel-case
    pattern"; [isValidParamNameCasing] itself is in [./parameters.js]. *)
Definition validCasing (name : string) : bool :=
  match name with
  | EmptyString => false
  | String c rest =>
      isLower c && allChars (λ c, isLower c || isUpper c || isDigit c) rest
  end.

(** Modelled from the spec: [isParameterValueValid] of [./parameters.js],
    the "symmetric check for already-typed values": the JS type of the
    value is the native type of the parameter type. *)
Definition valueValid (type : ParameterType) (value : ParameterValue) : bool :=
  match type, value with
  | (STRING | FILE), VString _ => true
  | BOOLEAN, VBoolean _ => true
  | (INT | FLOAT), VNumber _ => true
  | BIGINT, VBigint _ => true
  | _, _ => false
  end.

Fixpoint digitsToZ (acc : Z) (s : string) : option Z :=
  match s with
  | EmptyString => Some acc
  | String c rest =>
      if isDigit c
      then digitsToZ (acc * 10 + (Z.of_nat (Ascii.nat_of_ascii c) - 48))%Z rest
      else None
  end.

Fixpoint dropBigintSuffix (s : string) : string :=
  match s with
  | EmptyString => EmptyString
  | String c EmptyString => if Ascii.eqb c "n"%char then EmptyString else s
  | String c rest => String c (dropBigintSuffix rest)
  end.

(** Modelled from the spec: the parsing rules of [./parameters.js] that
    the test-suite exercises: strings and files are taken as they are,
    "BOOLEAN accepts exactly the literal tokens for true/false", "BIGINT
    requires an integer-literal token, optionally suffixed".  The INT and
    FLOAT rules are not described closely enough to be modelled; this
    stand-in accepts no INT or FLOAT literal. *)
Definition parse (type : ParameterType) (raw : string) : option ParameterValue :=
  match type with
  | STRING | FILE => Some (VString raw)
  | BOOLEAN =>
      if decide (raw = "true") then Some (VBoolean true)
      else if decide (raw = "false") then Some (VBoolean false)
      else None
  | BIGINT =>
      match dropBigintSuffix raw with
      | EmptyString => None
      | digits => VBigint <$> digitsToZ 0 digits
      end
  | INT | FLOAT => None
  end.

(** The reserved names are stand-ins for "names the runtime uses for its
    own purposes". *)
Definition parametersJs : ParametersJs := {|
  RESERVED_PARAMETER_NAMES := {[ "config"; "help"; "version" ]};
  isParameterValueValid := valueValid;
  isValidParamNameCasing := validCasing;
  parseRule := parse;
|}.

(** Modelled from the spec: [camelToSnakeCase] of the
    [hardhat-utils] package, "camelCase → upper snake case" once
    upper-cased: an underscore before every capital, which is lowered. *)
Fixpoint camelToSnakeCase (s : string) : string :=
  match s with
  | EmptyString => EmptyString
  | String c rest =>
      if isUpper c
      then String "_"%char (String (Ascii.ascii_of_nat (Ascii.nat_of_ascii c + 32))
                         (camelToSnakeCase rest))
      else String c (camelToSnakeCase rest)
  end.

Definition booleanParam (name description : string) (defaultValue : bool)
  : ParameterOptions.t :=
  ParameterOptions.mk name description (Some BOOLEAN) (VBoolean defaultValue).

Definition param1 : ParameterOptions.t :=
  booleanParam "param1" "param1 description" true.
Definition param1' : ParameterOptions.t :=
  booleanParam "param1" "param1 description 2" false.
Definition param2 : ParameterOptions.t :=
  ParameterOptions.mk "param2" "param2 description" None (VString "default").
Definition param3 : ParameterOptions.t :=
  ParameterOptions.mk "param3" "param3 description" (Some BIGINT) (VBigint 0).

(** "should throw if a parameter default value does not match the type" *)
Definition fooBoolean : ParameterOptions.t :=
  ParameterOptions.mk "foo" "Foo description" (Some BOOLEAN) (VString "bar").
(** "should throw if a parameter name is not valid" *)
Definition fooBar : ParameterOptions.t :=
  ParameterOptions.mk "foo bar" "Foo description" (Some STRING) (VString "bar").

Definition plugin (id : string) (params : list ParameterOptions.t)
  : HardhatPlugin.t :=
  HardhatPlugin.mk id (Some params).

Definition built (r : Result GlobalParametersMap) : GlobalParametersMap :=
  match r with Ok m => m | Throw _ => [] end.

(** The map of "should resolve to the user provided arguments and env
    variables". *)
Definition threeParams : GlobalParametersMap :=
  built (buildGlobalParametersMap (H := parametersJs)
           [plugin "plugin1" [param1; param2; param3]]).

Definition resolved (r : Completion string (GlobalArguments string))
  : GlobalArguments string :=
  match r with Returns ga => ga | Throws _ => ∅ end.

(** A stand-in for [parseParameterValue] on an inherited member, of which
    nothing is known: it returns the member as it is.  The properties below
    hold whatever it does. *)
Definition parseMember (member : string) (type : ParameterType) (name : string)
  : Completion string (JsValue string) :=
  Returns (Untyped member).

(** A parameter with the name of a member of [Object.prototype]. *)
Definition toStringParam : ParameterOptions.t :=
  booleanParam "toString" "toString description" true.

Definition withToString : GlobalParametersMap :=
  built (buildGlobalParametersMap (H := parametersJs)
           [plugin "plugin1" [toStringParam; param1]]).

(** The map of "should throw if the provided argument is not valid". *)
Definition oneParam : GlobalParametersMap :=
  built (buildGlobalParametersMap (H := parametersJs) [plugin "plugin1" [param1]]).

(** The map of "should resolve to the user provided arguments over the
    environment variables". *)
Definition twoParams : GlobalParametersMap :=
  built (buildGlobalParametersMap (H := parametersJs)
           [plugin "plugin1" [param1; param2]]).

(** [test/internal/hook-manager.ts]: values are written as strings, and the
    world is the [sequence] array. *)
Definition typeError : string := "TypeError: next is not a function".

Definition newManager : HookManager string (list (@Event string)) string :=
  mkHookManager "context" ∅.

(** [async (_context, _input) => result] *)
Definition constantly (result : string)
  : Handler string (list (@Event string)) string :=
  λ _ _, mret result.

(** "should run the handlers as a chain finishing with the default
    implementation" *)
Definition chainOfThree : HookManager string (list (@Event string)) string :=
  registerHandlers
    (registerHandlers
       (registerHandlers newManager "config"
          [("extendUserConfig", around typeError "first")])
       "config" [("extendUserConfig", around typeError "second")])
    "config" [("extendUserConfig", around typeError "third")].

(** "Should return a result per handler" *)
Definition twoValidators : HookManager string (list (@Event string)) string :=
  registerHandlers
    (registerHandlers newManager "config"
       [("validateUserConfig", constantly "first")])
    "config" [("validateUserConfig", constantly "second")].

(** "should pass the parameters with hook context for non-config hooks" *)
Definition fetching : HookManager string (list (@Event string)) string :=
  registerHandlers newManager "configurationVariables"
    [("fetchValue", around typeError "handler")].
End TestSuite.

(** * Properties *)

(** ** JS [Map] *)

Section JsMapFacts.
Context {V : Type}.
Implicit Types (m : JsMap V) (k : string) (v : V).

Lemma Map_get_set_eq m k v : Map_get (Map_set m k v) k = Some v.
Proof.
  induction m as [|[k' v'] m IH]; simpl.
  - by rewrite decide_True.
  - destruct (decide (k' = k)) as [->|Hne]; simpl.
    + by rewrite decide_True.
    + by rewrite decide_False.
Qed.

Lemma Map_get_set_ne m k k' v :
  k ≠ k' → Map_get (Map_set m k v) k' = Map_get m k'.
Proof.
  intros Hne. induction m as [|[k0 v0] m IH]; simpl.
  - by rewrite decide_False.
  - destruct (decide (k0 = k)) as [->|Hk0]; simpl.
    + by rewrite !decide_False.
    + by rewrite IH.
Qed.

Lemma Map_get_None m k : Map_get m k = None ↔ k ∉ Map_keys m.
Proof.
  unfold Map_keys. induction m as [|[k' v'] m IH]; simpl.
  - split; [intros _; apply not_elem_of_nil | done].
  - rewrite not_elem_of_cons. destruct (decide (k' = k)) as [->|Hne].
    + split; [done | by intros [? _]].
    + rewrite IH. split; [intros Hk; split; [intros ->; by apply Hne | done] | by intros [_ Hk]].
Qed.

Lemma Map_get_Some_elem m k v : Map_get m k = Some v → (k, v) ∈ m.
Proof.
  induction m as [|[k' v'] m IH]; simpl; [done|].
  destruct (decide (k' = k)) as [->|Hne].
  - intros [= ->]. apply list_elem_of_here.
  - intros Hget. apply list_elem_of_further. by apply IH.
Qed.

(** Setting a key that is not there appends the entry. *)
Lemma Map_set_fresh m k v : Map_get m k = None → Map_set m k v = m ++ [(k, v)].
Proof.
  induction m as [|[k' v'] m IH]; simpl; [done|].
  destruct (decide (k' = k)); [done|]. intros Hm. by rewrite IH.
Qed.

Lemma Map_get_unique m k v :
  NoDup (Map_keys m) → (k, v) ∈ m → Map_get m k = Some v.
Proof.
  unfold Map_keys. induction m as [|[k' v'] m IH]; simpl.
  - intros _ Hin. by apply elem_of_nil in Hin.
  - intros [Hk' Hnd]%NoDup_cons [Heq|Hin]%elem_of_cons.
    + injection Heq as -> ->. by rewrite decide_True.
    + destruct (decide (k' = k)) as [->|Hne]; [|by apply IH].
      exfalso. apply Hk'. apply list_elem_of_fmap. by exists (k, v).
Qed.
End JsMapFacts.

(** ** Building the map of global parameters *)

Section BuildFacts.
Context `{ParametersJs}.
Implicit Types (m : GlobalParametersMap) (p q : ParameterOptions.t).

Lemma Result_bind_Ok {A B} (r : Result A) (k : A → Result B) b :
  r ≫= k = Ok b → ∃ a, r = Ok a ∧ k a = Ok b.
Proof. destruct r as [a|e]; [by exists a | done]. Qed.

Lemma buildGlobalParameterDefinition_Ok p g :
  buildGlobalParameterDefinition p = Ok g →
  g = GlobalParameter.mk
        (ParameterOptions.name p) (ParameterOptions.description p)
        (default STRING (ParameterOptions.parameterType p))
        (ParameterOptions.defaultValue p)
  ∧ isValidParamNameCasing (ParameterOptions.name p) = true
  ∧ (ParameterOptions.name p ∉ RESERVED_PARAMETER_NAMES)
  ∧ (isParameterValueValid
       (default STRING (ParameterOptions.parameterType p))
       (ParameterOptions.defaultValue p) = true).
Proof.
  unfold buildGlobalParameterDefinition.
  destruct (isValidParamNameCasing _); simpl; [|done].
  case_decide; [done|].
  destruct (isParameterValueValid _ _); simpl; [|done].
  by intros [= <-].
Qed.

(** The three errors of [buildGlobalParameterDefinition]. *)
Lemma buildGlobalParameterDefinition_Throw p e :
  buildGlobalParameterDefinition p = Throw e →
  e = INVALID_NAME (ParameterOptions.name p)
  ∨ e = RESERVED_NAME (ParameterOptions.name p)
  ∨ e = INVALID_VALUE_FOR_TYPE (ParameterOptions.defaultValue p) "defaultValue"
        (ParameterOptions.parameterType p).
Proof.
  unfold buildGlobalParameterDefinition.
  destruct (isValidParamNameCasing _); simpl; [|intros [= <-]; by left].
  case_decide; [intros [= <-]; right; by left|].
  destruct (isParameterValueValid _ _); simpl; [done|].
  intros [= <-]. right; by right.
Qed.

Lemma addGlobalParameters_app pluginId ps1 ps2 m :
  addGlobalParameters pluginId (ps1 ++ ps2) m
  = addGlobalParameters pluginId ps1 m ≫= addGlobalParameters pluginId ps2.
Proof.
  revert m. induction ps1 as [|p ps1 IH]; intros m; simpl; [done|].
  destruct (Map_get m _); [done|].
  destruct (buildGlobalParameterDefinition p); simpl; [apply IH | done].
Qed.

Lemma addPlugins_app pre post m :
  addPlugins (pre ++ post) m = addPlugins pre m ≫= addPlugins post.
Proof.
  revert m. induction pre as [|plugin pre IH]; intros m; simpl; [done|].
  destruct (HardhatPlugin.globalParameters plugin) as [params|]; [|apply IH].
  destruct (addGlobalParameters _ params m); simpl; [apply IH | done].
Qed.

(** Entries are only ever added under names that are not yet there, so an
    entry of the map is never replaced. *)
Lemma addGlobalParameters_preserves pluginId ps m m' name entry :
  addGlobalParameters pluginId ps m = Ok m' →
  Map_get m name = Some entry → Map_get m' name = Some entry.
Proof.
  revert m. induction ps as [|p ps IH]; intros m; simpl.
  - by intros [= <-].
  - destruct (Map_get m (ParameterOptions.name p)) eqn:Hfresh; [done|].
    intros (g & Hg & Hrest)%Result_bind_Ok Hget.
    apply buildGlobalParameterDefinition_Ok in Hg as [-> _].
    apply (IH _ Hrest). simpl. rewrite Map_get_set_ne; [done|].
    intros Heq. congruence.
Qed.

Lemma addPlugins_preserves plugins m m' name entry :
  addPlugins plugins m = Ok m' →
  Map_get m name = Some entry → Map_get m' name = Some entry.
Proof.
  revert m. induction plugins as [|plugin plugins IH]; intros m; simpl.
  - by intros [= <-].
  - destruct (HardhatPlugin.globalParameters plugin) as [params|]; [|apply IH].
    intros (m1 & Hm1 & Hrest)%Result_bind_Ok Hget.
    apply (IH _ Hrest). eapply addGlobalParameters_preserves; eauto.
Qed.

(** A parameter that was added is owned by the plugin that declared it. *)
Lemma addGlobalParameters_owner pluginId ps m m' q :
  addGlobalParameters pluginId ps m = Ok m' → q ∈ ps →
  ∃ entry, Map_get m' (ParameterOptions.name q) = Some entry
           ∧ GlobalParametersMapEntry.pluginId entry = pluginId.
Proof.
  revert m. induction ps as [|p ps IH]; intros m; simpl.
  - intros _ Hq. by apply elem_of_nil in Hq.
  - destruct (Map_get m (ParameterOptions.name p)) eqn:Hfresh; [done|].
    intros (g & Hg & Hrest)%Result_bind_Ok [->|Hq]%elem_of_cons.
    + apply buildGlobalParameterDefinition_Ok in Hg as [-> _]. simpl in Hrest.
      eexists. split.
      * eapply addGlobalParameters_preserves; [exact Hrest|].
        apply Map_get_set_eq.
      * reflexivity.
    + by apply (IH _ Hrest).
Qed.

Lemma addPlugins_owner plugins m m' plugin params q :
  addPlugins plugins m = Ok m' →
  plugin ∈ plugins → HardhatPlugin.globalParameters plugin = Some params →
  q ∈ params →
  ∃ entry, Map_get m' (ParameterOptions.name q) = Some entry
           ∧ GlobalParametersMapEntry.pluginId entry = HardhatPlugin.id plugin.
Proof.
  revert m. induction plugins as [|plugin0 plugins IH]; intros m; simpl.
  - intros _ Hin. by apply elem_of_nil in Hin.
  - intros Hbuild [->|Hin]%elem_of_cons Hparams Hq.
    + rewrite Hparams in Hbuild.
      apply Result_bind_Ok in Hbuild as (m1 & Hm1 & Hrest).
      destruct (addGlobalParameters_owner _ _ _ _ _ Hm1 Hq) as (entry & ? & ?).
      exists entry. split; [|done]. eapply addPlugins_preserves; eauto.
    + destruct (HardhatPlugin.globalParameters plugin0) as [params0|].
      * apply Result_bind_Ok in Hbuild as (m1 & Hm1 & Hrest).
        by apply (IH _ Hrest).
      * by apply (IH _ Hbuild).
Qed.

(** A declaration that finds its name in the map cannot be one that
    [buildGlobalParameterDefinition] rejects for its name: every name of the
    map was accepted. *)
Lemma addGlobalParameters_namesAccepted pluginId ps m m' :
  addGlobalParameters pluginId ps m = Ok m' → namesAccepted m → namesAccepted m'.
Proof.
  revert m. induction ps as [|p ps IH]; intros m; simpl.
  - by intros [= <-].
  - destruct (Map_get m (ParameterOptions.name p)) eqn:Hfresh; [done|].
    intros (g & Hg & Hrest)%Result_bind_Ok Hm. apply (IH _ Hrest).
    apply buildGlobalParameterDefinition_Ok in Hg as (-> & Hcasing & Hreserved & _).
    intros name entry. simpl.
    destruct (decide (ParameterOptions.name p = name)) as [<-|Hne]; [done|].
    rewrite Map_get_set_ne by done. apply Hm.
Qed.

Lemma addPlugins_namesAccepted plugins m m' :
  addPlugins plugins m = Ok m' → namesAccepted m → namesAccepted m'.
Proof.
  revert m. induction plugins as [|plugin plugins IH]; intros m; simpl.
  - by intros [= <-].
  - destruct (HardhatPlugin.globalParameters plugin) as [params|]; [|apply IH].
    intros (m1 & Hm1 & Hrest)%Result_bind_Ok Hm. apply (IH _ Hrest).
    by eapply addGlobalParameters_namesAccepted.
Qed.

(** The loop stops at the first parameter whose name is in the map. *)
Lemma addPlugins_redeclared pre later post ps1 p ps2 m0 m existingByName :
  HardhatPlugin.globalParameters later = Some (ps1 ++ p :: ps2) →
  addPlugins pre [] = Ok m0 →
  addGlobalParameters (HardhatPlugin.id later) ps1 m0 = Ok m →
  Map_get m (ParameterOptions.name p) = Some existingByName →
  buildGlobalParametersMap (pre ++ later :: post)
  = Throw (GLOBAL_PARAMETER_ALREADY_DEFINED
             (HardhatPlugin.id later) (ParameterOptions.name p)
             (GlobalParametersMapEntry.pluginId existingByName)).
Proof.
  intros Hparams Hpre Hps1 Hget. unfold buildGlobalParametersMap.
  rewrite addPlugins_app, Hpre. simpl. rewrite Hparams.
  rewrite addGlobalParameters_app, Hps1. simpl. by rewrite Hget.
Qed.
(** C7 (as amended).  When the name of the parameter is accepted and its
    programmatic default value fails validation against the declared type,
    or against STRING when none is declared,
    [buildGlobalParameterDefinition] throws INVALID_VALUE_FOR_TYPE carrying
    the offending value and the fixed name ["defaultValue"]; when a type was
    declared, the error carries that type. *)
Theorem buildGlobalParameterDefinition_invalid_default p :
  isValidParamNameCasing (ParameterOptions.name p) = true →
  ParameterOptions.name p ∉ RESERVED_PARAMETER_NAMES →
  isParameterValueValid (default STRING (ParameterOptions.parameterType p))
    (ParameterOptions.defaultValue p) = false →
  ∃ type,
    buildGlobalParameterDefinition p
    = Throw (INVALID_VALUE_FOR_TYPE
               (ParameterOptions.defaultValue p) "defaultValue" type)
    ∧ ∀ declared,
        ParameterOptions.parameterType p = Some declared → type = Some declared.
Proof.
  intros Hcasing Hreserved Hinvalid.
  exists (ParameterOptions.parameterType p). split; [|done].
  unfold buildGlobalParameterDefinition.
  rewrite Hcasing, Hinvalid. simpl. by rewrite decide_False.
Qed.

(** C10.  In [buildGlobalParametersMap] the lookup of the name comes before
    the validation of the definition: when the loop reaches a parameter whose
    name is already in the map, the call throws
    GLOBAL_PARAMETER_ALREADY_DEFINED whatever
    [buildGlobalParameterDefinition] would answer on that parameter, and in
    particular it does not throw the error of that validation. *)
Theorem duplicate_check_before_validation
    pre later post ps1 p ps2 m0 m existingByName :
  HardhatPlugin.globalParameters later = Some (ps1 ++ p :: ps2) →
  addPlugins pre [] = Ok m0 →
  addGlobalParameters (HardhatPlugin.id later) ps1 m0 = Ok m →
  Map_get m (ParameterOptions.name p) = Some existingByName →
  buildGlobalParametersMap (pre ++ later :: post)
  = Throw (GLOBAL_PARAMETER_ALREADY_DEFINED
             (HardhatPlugin.id later) (ParameterOptions.name p)
             (GlobalParametersMapEntry.pluginId existingByName))
  ∧ ∀ e, buildGlobalParameterDefinition p = Throw e →
         buildGlobalParametersMap (pre ++ later :: post) ≠ Throw e.
Proof.
  intros Hparams Hpre Hps1 Hget.
  rewrite (addPlugins_redeclared _ _ _ _ _ _ _ _ _ Hparams Hpre Hps1 Hget).
  split; [done|]. intros e He [= <-].
  by destruct (buildGlobalParameterDefinition_Throw _ _ He) as [?|[?|?]].
Qed.

(** C5 (as amended).  When a later plugin declares a parameter under a name
    that an earlier plugin declared, and everything the loop processes
    before that declaration is accepted, [buildGlobalParametersMap] throws
    GLOBAL_PARAMETER_ALREADY_DEFINED carrying the id of the later plugin, the
    name of the parameter and the id of the earlier plugin. *)
Theorem redeclaration_reports_both_plugins
    pre earlier between later post params q ps1 p ps2 m0 m :
  HardhatPlugin.globalParameters earlier = Some params → q ∈ params →
  HardhatPlugin.globalParameters later = Some (ps1 ++ p :: ps2) →
  ParameterOptions.name q = ParameterOptions.name p →
  addPlugins (pre ++ earlier :: between) [] = Ok m0 →
  addGlobalParameters (HardhatPlugin.id later) ps1 m0 = Ok m →
  buildGlobalParametersMap ((pre ++ earlier :: between) ++ later :: post)
  = Throw (GLOBAL_PARAMETER_ALREADY_DEFINED
             (HardhatPlugin.id later) (ParameterOptions.name p)
             (HardhatPlugin.id earlier)).
Proof.
  intros Hearlier Hq Hlater Hname Hpre Hps1.
  destruct (addPlugins_owner _ _ _ earlier params q Hpre) as (entry & Hentry & <-);
    [apply elem_of_app; right; apply list_elem_of_here | done | done |].
  rewrite Hname in Hentry.
  eapply addPlugins_redeclared; [done | done | exact Hps1 |].
  by eapply addGlobalParameters_preserves.
Qed.
End BuildFacts.

(** ** Resolving the global arguments *)

Section ResolveFacts.
Context `{ParametersJs} {Other : Type}.
Variable camelToSnakeCase : string → string.
Variable parseInherited :
  string → ParameterType → string → Completion Other (JsValue Other).
Implicit Types (env : ProcessEnv) (user : UserProvidedGlobalArguments.t).
Implicit Types (entries : GlobalParametersMap) (acc ga : GlobalArguments Other).

#[local] Abbreviation raw := (rawValue camelToSnakeCase).
#[local] Abbreviation resolve1 := (resolveEntry camelToSnakeCase parseInherited).
#[local] Abbreviation loop := (resolveEntries camelToSnakeCase parseInherited).

Lemma Completion_bind_Returns {A B}
    (c : Completion Other A) (k : A → Completion Other B) b :
  c ≫= k = Returns b → ∃ a, c = Returns a ∧ k a = Returns b.
Proof. destruct c as [a|thrown]; [by exists a | done]. Qed.

Lemma setArgument_lookup_ne acc name name' v :
  name ≠ name' → setArgument acc name v !! name' = acc !! name'.
Proof.
  intros Hne. unfold setArgument. case_decide; [done|].
  by apply lookup_insert_ne.
Qed.

Lemma setArgument_lookup_eq acc name v :
  name ≠ "__proto__" → setArgument acc name v !! name = Some v.
Proof.
  intros Hname. unfold setArgument. rewrite decide_False by done.
  apply lookup_insert_eq.
Qed.

Lemma setArgument_lookup_proto acc v :
  setArgument acc "__proto__" v = acc.
Proof. unfold setArgument. by rewrite decide_True. Qed.

(** An inherited member under a name that starts with [HARDHAT_] does not
    exist on [Object.prototype]: reading [process.env] by its own variables
    loses nothing. *)
Lemma envVariableName_not_inherited name :
  envVariableName camelToSnakeCase name ∉ Object_prototype.
Proof.
  unfold envVariableName, Object_prototype. simpl.
  rewrite !not_elem_of_union, !not_elem_of_singleton.
  repeat split; discriminate.
Qed.

Lemma resolveEntries_other env user entries acc ga name :
  loop env user entries acc = Returns ga →
  name ∉ Map_keys entries → ga !! name = acc !! name.
Proof.
  unfold Map_keys. revert acc.
  induction entries as [|[n e] entries IH]; intros acc; simpl.
  - by intros [= <-].
  - intros (v & Hv & Hrest)%Completion_bind_Returns
      [Hne Hnotin]%not_elem_of_cons.
    rewrite (IH _ Hrest Hnotin). apply setArgument_lookup_ne. congruence.
Qed.

Lemma resolveEntries_lookup env user entries acc ga name entry :
  loop env user entries acc = Returns ga →
  NoDup (Map_keys entries) → (name, entry) ∈ entries →
  name ≠ "__proto__" →
  ∃ v, resolve1 env user name (GlobalParametersMapEntry.param entry) = Returns v
       ∧ ga !! name = Some v.
Proof.
  unfold Map_keys. revert acc.
  induction entries as [|[n e] entries IH]; intros acc; simpl.
  - intros _ _ Hin. by apply elem_of_nil in Hin.
  - intros (v & Hv & Hrest)%Completion_bind_Returns [Hn Hnd]%NoDup_cons
      [Heq|Hin]%elem_of_cons Hname.
    + injection Heq as -> ->. exists v. split; [done|].
      rewrite (resolveEntries_other _ _ _ _ _ _ Hrest Hn).
      by apply setArgument_lookup_eq.
    + by apply (IH _ Hrest).
Qed.

(** The keys of the arguments: the names of the map, [__proto__] apart. *)
Lemma resolveEntries_dom env user entries acc ga :
  loop env user entries acc = Returns ga →
  dom ga = (list_to_set (Map_keys entries) ∖ {["__proto__"]}) ∪ dom acc.
Proof.
  unfold Map_keys. revert acc.
  induction entries as [|[n e] entries IH]; intros acc; simpl.
  - intros [= <-]. set_unfold; intuition congruence.
  - intros (v & Hv & Hrest)%Completion_bind_Returns.
    rewrite (IH _ Hrest). unfold setArgument. case_decide as Hn.
    + subst n. set_unfold; intuition congruence.
    + rewrite dom_insert_L. set_unfold; intuition congruence.
Qed.

(** The loop reads the user's object and the environment only at the names
    of the map. *)
Lemma resolveEntries_ext env env' user user' entries acc :
  (∀ name, name ∈ Map_keys entries →
           readProperty user name = readProperty user' name) →
  (∀ name, name ∈ Map_keys entries →
           env !! envVariableName camelToSnakeCase name
           = env' !! envVariableName camelToSnakeCase name) →
  loop env user entries acc = loop env' user' entries acc.
Proof.
  unfold Map_keys. revert acc.
  induction entries as [|[n e] entries IH]; intros acc Huser Henv; simpl; [done|].
  assert (resolve1 env user n (GlobalParametersMapEntry.param e)
          = resolve1 env' user' n (GlobalParametersMapEntry.param e)) as ->.
  { unfold resolveEntry, rawValue.
    rewrite <-(Huser n), <-(Henv n); [done | | ]; simpl; apply list_elem_of_here. }
  destruct (resolve1 env' user' n _); simpl; [|done].
  apply IH; intros name Hin; [apply Huser | apply Henv];
    simpl; by apply list_elem_of_further.
Qed.

Lemma resolveEntries_Returns_all env user entries acc ga :
  loop env user entries acc = Returns ga →
  Forall (λ '(n, e), ∃ v, resolve1 env user n
                            (GlobalParametersMapEntry.param e) = Returns v)
    entries.
Proof.
  revert acc. induction entries as [|[n e] entries IH]; intros acc; simpl.
  - constructor.
  - intros (v & Hv & Hrest)%Completion_bind_Returns.
    constructor; [by exists v|]. by apply (IH _ Hrest).
Qed.

(** The call returns arguments as soon as every entry resolves. *)
Lemma resolveEntries_returns env user entries acc :
  Forall (λ '(n, e), ∃ v, resolve1 env user n
                            (GlobalParametersMapEntry.param e) = Returns v)
    entries →
  ∃ ga, loop env user entries acc = Returns ga.
Proof.
  intros Hall. revert acc.
  induction Hall as [|[n e] entries [v Hv] _ IH]; intros acc; simpl.
  - by exists acc.
  - rewrite Hv. simpl. apply IH.
Qed.

(** All entries before [(name, entry)] resolve, and that one throws: the
    call throws what it throws. *)
Lemma resolveEntries_first_throw env user pre post acc name entry thrown :
  Forall (λ '(n, e), ∃ v, resolve1 env user n
                            (GlobalParametersMapEntry.param e) = Returns v) pre →
  resolve1 env user name (GlobalParametersMapEntry.param entry) = Throws thrown →
  loop env user (pre ++ (name, entry) :: post) acc = Throws thrown.
Proof.
  intros Hpre Hthrows. revert acc.
  induction Hpre as [|[n e] pre [v Hv] _ IH]; intros acc; simpl.
  - by rewrite Hthrows.
  - rewrite Hv. simpl. apply IH.
Qed.

(** A string that does not parse makes its entry throw. *)
Lemma resolveEntry_unparsed env user name param value :
  raw env user name = Some (RawString value) →
  parseRule (GlobalParameter.parameterType param) value = None →
  resolve1 env user name param
  = Throws (HardhatThrown
              (INVALID_VALUE_FOR_TYPE (VString value) name
                 (Some (GlobalParameter.parameterType param)))).
Proof.
  intros Hraw Hparse.
  unfold resolveEntry, parseRawValue, parseParameterValue.
  by rewrite Hraw, Hparse.
Qed.

(** An inherited member is handed to the parser before a later string is
    looked at. *)
Lemma resolveEntries_member_then_unparsed
    env user acc name1 entry1 name2 entry2 value :
  readProperty user name1 = Some (RawMember name1) →
  raw env user name2 = Some (RawString value) →
  parseRule (GlobalParameter.parameterType (GlobalParametersMapEntry.param entry2))
    value = None →
  loop env user [(name1, entry1); (name2, entry2)] acc
  = match parseInherited name1
            (GlobalParameter.parameterType (GlobalParametersMapEntry.param entry1))
            name1 with
    | Returns _ =>
        Throws (HardhatThrown
                  (INVALID_VALUE_FOR_TYPE (VString value) name2
                     (Some (GlobalParameter.parameterType
                              (GlobalParametersMapEntry.param entry2)))))
    | Throws thrown => Throws thrown
    end.
Proof.
  intros Hmember Hraw Hparse. simpl.
  rewrite (resolveEntry_unparsed _ _ _ _ _ Hraw Hparse).
  unfold resolveEntry at 1. unfold rawValue. rewrite Hmember. simpl.
  by destruct (parseInherited name1 _ name1).
Qed.

(** C6.  The outcome of [resolveGlobalArguments] depends on the user's
    object and on the environment only at the names of the map, so whatever
    they hold under other names is ignored and raises nothing: the call
    returns arguments as soon as every entry of the map resolves.  The
    arguments returned have exactly the names of the map as keys. *)
Theorem resolveGlobalArguments_registry_only
    env env' user user' (globalParametersMap : GlobalParametersMap) :
  "__proto__" ∉ Map_keys globalParametersMap →
  (∀ name, name ∈ Map_keys globalParametersMap →
           readProperty user name = readProperty user' name) →
  (∀ name, name ∈ Map_keys globalParametersMap →
           env !! envVariableName camelToSnakeCase name
           = env' !! envVariableName camelToSnakeCase name) →
  resolveGlobalArguments camelToSnakeCase parseInherited env user
    globalParametersMap
  = resolveGlobalArguments camelToSnakeCase parseInherited env' user'
      globalParametersMap
  ∧ (∀ ga,
       resolveGlobalArguments camelToSnakeCase parseInherited env user
         globalParametersMap
       = Returns ga →
       dom ga = list_to_set (Map_keys globalParametersMap))
  ∧ (Forall
       (λ '(name, entry),
          ∃ v, resolveEntry camelToSnakeCase parseInherited env user name
                 (GlobalParametersMapEntry.param entry)
               = Returns v)
       globalParametersMap →
     ∃ ga,
       resolveGlobalArguments camelToSnakeCase parseInherited env user
         globalParametersMap
       = Returns ga
       ∧ dom ga = list_to_set (Map_keys globalParametersMap)).
Proof.
  intros Hproto Huser Henv.
  assert (∀ ga,
            resolveGlobalArguments camelToSnakeCase parseInherited env user
              globalParametersMap
            = Returns ga →
            dom ga = list_to_set (Map_keys globalParametersMap)) as Hdom.
  { intros ga Hga%resolveEntries_dom. rewrite Hga, dom_empty_L.
    rewrite (right_id_L ∅ (∪)). set_unfold. intros x.
    split; [tauto|]. intros Hx. split; [done|]. by intros ->. }
  split; [by apply resolveEntries_ext|]. split; [done|].
  intros [ga Hga]%(resolveEntries_returns env user globalParametersMap ∅).
  exists ga. split; [done|]. by apply Hdom.
Qed.

(** C2 (the failing input).  With an empty object literal as the user's
    arguments and a parameter named [toString], [resolveGlobalArguments]
    hands the [toString] that the object inherits from [Object.prototype] to
    [parseParameterValue], whatever the environment holds and whatever the
    default value is: neither the variable HARDHAT_TO_STRING nor the
    [defaultValue] of the definition is taken. *)
Theorem resolveGlobalArguments_parses_inherited_member env entry :
  resolveGlobalArguments camelToSnakeCase parseInherited env (objectLiteral ∅)
    [("toString", entry)]
  = match parseInherited "toString"
            (GlobalParameter.parameterType (GlobalParametersMapEntry.param entry))
            "toString" with
    | Returns v => Returns {[ "toString" := v ]}
    | Throws thrown => Throws thrown
    end.
Proof.
  unfold resolveGlobalArguments. simpl.
  unfold resolveEntry, rawValue, readProperty. simpl.
  rewrite lookup_empty, decide_True by compute_done. simpl.
  destruct (parseInherited "toString" _ "toString") as [v|thrown]; simpl; [|done].
  unfold setArgument. rewrite decide_False by done. by rewrite insert_empty.
Qed.
End ResolveFacts.

(** ** Hook dispatch *)

Section HookFacts.
Context {Value World Exn : Type}.
Implicit Types (manager : HookManager Value World Exn).
Implicit Types (handler : Handler Value World Exn) (params : list Value).
Implicit Types (category hookName : string).

Lemma handlerSet_registerHandler manager category hookName handler :
  handlerSet (registerHandler manager category hookName handler) category hookName
  = handlerSet manager category hookName ++ [handler].
Proof. unfold handlerSet at 1. simpl. by rewrite lookup_insert_eq. Qed.

Lemma handlerSet_registerHandler_ne
    manager category hookName handler category' hookName' :
  (category, hookName) ≠ (category', hookName') →
  handlerSet (registerHandler manager category hookName handler)
    category' hookName'
  = handlerSet manager category' hookName'.
Proof. intros Hne. unfold handlerSet. simpl. by rewrite lookup_insert_ne. Qed.

Lemma handlerParams_registerHandler
    manager category hookName handler category' params :
  handlerParams (registerHandler manager category hookName handler)
    category' params
  = handlerParams manager category' params.
Proof. reflexivity. Qed.

(** Three registrations on a pair without handlers: the dispatch order. *)
Lemma getHandlers_three manager category hookName H1 H2 H3 :
  handlerSet manager category hookName = [] →
  getHandlers
    (registerHandler
       (registerHandler (registerHandler manager category hookName H1)
          category hookName H2)
       category hookName H3)
    category hookName
  = [H3; H2; H1].
Proof.
  intros Hempty. unfold getHandlers.
  by rewrite !handlerSet_registerHandler, Hempty.
Qed.

(** C4.  With H1, H2 and H3 registered in that order on a pair that had no
    handler, [runSequentialHandlers] calls H3, then H2 on the world H3 left,
    then H1, each on the same arguments, and returns their three results in
    that order; a call that throws ends the dispatch.  On a pair without
    handlers it returns the empty list. *)
Theorem runSequentialHandlers_reverse_order
    manager category hookName H1 H2 H3 params :
  handlerSet manager category hookName = [] →
  let manager' :=
    registerHandler
      (registerHandler (registerHandler manager category hookName H1)
         category hookName H2)
      category hookName H3 in
  let args := handlerParams manager category params in
  (∀ w, runSequentialHandlers manager category hookName params w
        = (Returned [], w))
  ∧ ∀ w, runSequentialHandlers manager' category hookName params w
         = (r3 ← H3 args None;
            r2 ← H2 args None;
            r1 ← H1 args None;
            mret [r3; r2; r1]) w.
Proof.
  intros Hempty. simpl. split; intros w; unfold runSequentialHandlers.
  - unfold getHandlers. by rewrite Hempty.
  - rewrite getHandlers_three by done. rewrite !handlerParams_registerHandler.
    simpl. unfold mbind, Async_bind, mret, Async_ret.
    destruct (H3 _ None w) as [[r3|e3] w3]; [|done].
    destruct (H2 _ None w3) as [[r2|e2] w2]; [|done].
    by destruct (H1 _ None w2) as [[r1|e1] w1].
Qed.

(** *** Parallel dispatch *)

(** What [settle] leaves in the result slots: the slot of every position
    of the schedule holds a result of the handler at that position, and the
    other slots are untouched. *)
Lemma settle_results (handlers : list (Handler Value World Exn))
    params completionOrder (results results' : list (option Value)) w w' :
  length results = length handlers →
  settle handlers params completionOrder results w = (Returned results', w') →
  length results' = length handlers
  ∧ ∀ i,
      (i ∈ completionOrder → i < length handlers →
       ∃ handler result,
         handlers !! i = Some handler
         ∧ results' !! i = Some (Some result)
         ∧ returnedBy params handler result)
      ∧ (i ∉ completionOrder → results' !! i = results !! i).
Proof.
  revert results w.
  induction completionOrder as [|i0 later IH]; intros results w Hlen; simpl.
  - intros [= <- <-]. split; [done|]. intros i. split; [|done].
    intros Hin. by apply elem_of_nil in Hin.
  - destruct (handlers !! i0) as [handler|] eqn:Hi0.
    + unfold mbind, Async_bind.
      destruct (handler params None w) as [[result|e] w1] eqn:Hcall; [|done].
      intros Hsettle. apply IH in Hsettle as [Hlen' Hslots];
        [|by rewrite length_insert].
      split; [done|]. intros i. destruct (Hslots i) as [Hin Hout]. split.
      * intros [->|Hi]%elem_of_cons Hlt; [|by apply Hin].
        destruct (decide (i0 ∈ later)) as [Hlater|Hlater]; [by apply Hin|].
        exists handler, result. split; [done|]. split.
        -- rewrite Hout by done.
           apply list_lookup_insert_eq. by rewrite Hlen.
        -- exists w. by rewrite Hcall.
      * intros [Hne Hnotin]%not_elem_of_cons. rewrite Hout by done.
        by apply list_lookup_insert_ne.
    + intros Hsettle. apply IH in Hsettle as [Hlen' Hslots]; [|done].
      split; [done|]. intros i. destruct (Hslots i) as [Hin Hout]. split.
      * intros [->|Hi]%elem_of_cons Hlt; [|by apply Hin].
        apply lookup_lt_is_Some_2 in Hlt as [handler Hsome]. congruence.
      * intros [Hne Hnotin]%not_elem_of_cons. by apply Hout.
Qed.

(** Once every slot is settled, reading the slots gives one result per
    handler, in the order of the handlers. *)
Lemma settled_slots (P : Handler Value World Exn → Value → Prop)
    (handlers : list (Handler Value World Exn)) (results : list (option Value)) :
  length results = length handlers →
  (∀ i, i < length handlers →
        ∃ handler result,
          handlers !! i = Some handler
          ∧ results !! i = Some (Some result) ∧ P handler result) →
  Forall2 P handlers (omap id results).
Proof.
  revert results. induction handlers as [|handler handlers IH];
    intros [|slot results]; simpl; intros Hlen Hslots; try discriminate.
  - constructor.
  - injection Hlen as Hlen.
    destruct (Hslots 0) as (handler0 & result & [= <-] & [= ->] & HP); [lia|].
    simpl. constructor; [done|]. apply IH; [done|].
    intros i Hi. apply (Hslots (S i)). lia.
Qed.

Lemma callInTurn_answers (handlers : list (Handler Value World Exn))
    params expected w :
  Forall2 (answers params) handlers expected →
  (callInTurn handlers params w).1 = Returned expected.
Proof.
  intros Hall. revert w.
  induction Hall as [|handler result handlers expected Hanswer _ IH];
    intros w; simpl; [done|].
  unfold mbind, Async_bind. specialize (Hanswer w).
  destruct (handler params None w) as [[r|e] w1]; simpl in Hanswer; [|done].
  injection Hanswer as ->. specialize (IH w1).
  destruct (callInTurn handlers params w1) as [[rs|e] w2]; simpl in IH; [|done].
  by injection IH as ->.
Qed.

Lemma settle_returns (handlers : list (Handler Value World Exn))
    params expected completionOrder results w :
  Forall2 (answers params) handlers expected →
  ∃ results' w',
    settle handlers params completionOrder results w = (Returned results', w').
Proof.
  intros Hall. revert results w.
  induction completionOrder as [|i later IH]; intros results w; simpl.
  - by exists results, w.
  - destruct (handlers !! i) as [handler|] eqn:Hi; [|apply IH].
    destruct (Forall2_lookup_l _ _ _ _ _ Hall Hi) as (result & _ & Hanswer).
    unfold mbind, Async_bind. specialize (Hanswer w).
    destruct (handler params None w) as [[r|e] w1]; simpl in Hanswer; [|done].
    apply IH.
Qed.

Lemma returnedBy_answers (handlers : list (Handler Value World Exn))
    params results expected :
  Forall2 (returnedBy params) handlers results →
  Forall2 (answers params) handlers expected →
  results = expected.
Proof.
  intros Hreturned. revert expected.
  induction Hreturned as [|handler result handlers results [w Hw] _ IH];
    intros expected Hall.
  - by apply Forall2_nil_inv_l in Hall.
  - apply Forall2_cons_inv_l in Hall as (v & expected' & Hanswer & Hall & ->).
    rewrite (Hanswer w) in Hw. injection Hw as ->. f_equal. by apply IH.
Qed.

(** C3.  Whatever the order in which the calls of a parallel dispatch take
    effect, the list [runParallelHandlers] returns has one result per
    handler, at the position the handler has in the order of sequential
    dispatch (most recently registered first); when the answers of the
    handlers do not depend on timing it is the very list
    [runSequentialHandlers] returns; without handlers it is empty. *)
Theorem runParallelHandlers_keeps_dispatch_order
    manager category hookName params completionOrder :
  let handlers := getHandlers manager category hookName in
  let args := handlerParams manager category params in
  completionOrder ≡ₚ seq 0 (length handlers) →
  (handlers = [] →
   ∀ w, runParallelHandlers manager category hookName params completionOrder w
        = (Returned [], w))
  ∧ (∀ w results w',
       runParallelHandlers manager category hookName params completionOrder w
       = (Returned results, w') →
       Forall2 (returnedBy args) handlers results)
  ∧ (∀ expected,
       Forall2 (answers args) handlers expected →
       ∀ w,
         (runParallelHandlers manager category hookName params completionOrder w).1
         = Returned expected
         ∧ (runSequentialHandlers manager category hookName params w).1
           = Returned expected).
Proof.
  intros handlers args Horder.
  assert (∀ w results w',
            runParallelHandlers manager category hookName params completionOrder w
            = (Returned results, w') →
            Forall2 (returnedBy args) handlers results) as Hpositions.
  { intros w results w'. unfold runParallelHandlers, mbind, Async_bind.
    fold handlers args.
    destruct (settle handlers args completionOrder _ w)
      as [[slots|e] w1] eqn:Hsettle; [|done].
    intros [= <- <-].
    apply settle_results in Hsettle as [Hlen Hslots]; [|by rewrite length_replicate].
    apply settled_slots; [done|]. intros i Hi. apply (Hslots i); [|done].
    rewrite Horder. apply elem_of_seq. lia. }
  split; [|split; [done|]].
  - intros Hnone w. unfold runParallelHandlers. fold handlers.
    rewrite Hnone in Horder |- *. simpl in Horder.
    by apply Permutation_nil_r in Horder as ->.
  - intros expected Hall w. split; [|by apply callInTurn_answers].
    destruct (settle_returns handlers args expected completionOrder
                (replicate (length handlers) None) w Hall)
      as (slots & w' & Hsettle).
    assert (runParallelHandlers manager category hookName params completionOrder w
            = (Returned (omap id slots), w')) as Hrun.
    { unfold runParallelHandlers, mbind, Async_bind. fold handlers args.
      by rewrite Hsettle. }
    rewrite Hrun. simpl. f_equal.
    eapply returnedBy_answers; [|exact Hall]. by eapply Hpositions.
Qed.
End HookFacts.

(** ** What recording handlers see *)

Section RecordingFacts.
Context {Value Exn : Type}.
Variable notAFunction : Exn.
Implicit Types (manager : HookManager Value (list (@Event Value)) Exn).
Implicit Types (sequence : list (@Event Value)) (params : list Value).
Implicit Types (labels : list string) (reports : list (string * Value)).

#[local] Abbreviation step :=
  (λ (handler : Handler Value (list (@Event Value)) Exn)
     (next : Continuation Value (list (@Event Value)) Exn),
     λ nextParams, handler nextParams (Some next)).

Lemma reporting_run label result params
    (next : option (Continuation Value (list (@Event Value)) Exn)) sequence :
  reporting label result params next sequence
  = (Returned result, sequence ++ [Entered label params]).
Proof. reflexivity. Qed.

Lemma around_run label params
    (next : Continuation Value (list (@Event Value)) Exn) sequence :
  around notAFunction label params (Some next) sequence
  = match next params (sequence ++ [Entered label params]) with
    | (Returned result, sequence') => (Returned result, sequence' ++ [Exited label])
    | (Raised e, sequence') => (Raised e, sequence')
    end.
Proof.
  unfold around, mbind, Async_bind, push, mret, Async_ret. simpl.
  by destruct (next params _) as [[result|e] sequence'].
Qed.

(** A chain of [around] handlers, outermost first. *)
Lemma chain_around labels params result sequence :
  foldr step (recordingDefault result) (around notAFunction <$> labels)
    params sequence
  = (Returned result,
     sequence ++ ((λ l, Entered l params) <$> labels)
       ++ DefaultRan params :: (Exited <$> reverse labels)).
Proof.
  revert sequence. induction labels as [|l labels IH]; intros sequence.
  - reflexivity.
  - rewrite !fmap_cons. cbn [foldr]. rewrite around_run, IH. f_equal.
    rewrite reverse_cons, fmap_app. simpl.
    by rewrite <-!app_assoc.
Qed.

Lemma callInTurn_reporting reports params sequence :
  callInTurn ((λ '(l, r), reporting (Exn:=Exn) l r) <$> reports) params sequence
  = (Returned reports.*2,
     sequence ++ ((λ report, Entered report.1 params) <$> reports)).
Proof.
  revert sequence. induction reports as [|[l r] reports IH]; intros sequence.
  - simpl. by rewrite app_nil_r.
  - rewrite !fmap_cons. cbn [callInTurn]. unfold mbind, Async_bind.
    rewrite reporting_run, IH. simpl. by rewrite <-app_assoc.
Qed.

Lemma settle_reporting reports params completionOrder
    (results : list (option Value)) sequence :
  ∃ results' events,
    settle ((λ '(l, r), reporting (Exn:=Exn) l r) <$> reports) params completionOrder
      results sequence
    = (Returned results', sequence ++ events)
    ∧ Forall (λ e, ∃ l, e = Entered l params) events
    ∧ (Forall (λ i, i < length reports) completionOrder →
       length events = length completionOrder).
Proof.
  revert results sequence.
  induction completionOrder as [|i later IH]; intros results sequence; simpl.
  - exists results, []. by rewrite app_nil_r.
  - rewrite list_lookup_fmap.
    destruct (reports !! i) as [[l r]|] eqn:Hi; simpl.
    + unfold mbind, Async_bind. rewrite reporting_run.
      destruct (IH (<[i:=Some r]> results) (sequence ++ [Entered l params]))
        as (results' & events & -> & Hall & Hlen).
      exists results', (Entered l params :: events).
      rewrite <-app_assoc. split; [done|]. split.
      * constructor; [by exists l | done].
      * intros [_ Hlater]%Forall_cons. simpl. by rewrite Hlen.
    + destruct (IH results sequence) as (results' & events & -> & Hall & Hlen).
      exists results', events. split; [done|]. split; [done|].
      intros [Hlt _]%Forall_cons. apply lookup_ge_None in Hi. lia.
Qed.

(** C1.  With H1, H2 and H3 registered in that order on a pair that had no
    handler, [runHandlerChain] is H3 applied to the arguments and to a [next]
    that calls H2, whose [next] calls H1, whose [next] is the default
    implementation.  With handlers that record their entry, call [next] and
    record their exit, the sequence recorded is: H3 enters, H2 enters, H1
    enters, the default implementation runs, H1 exits, H2 exits, H3 exits. *)
Theorem runHandlerChain_onion manager category hookName params :
  handlerSet manager category hookName = [] →
  let args := handlerParams manager category params in
  let registered H1 H2 H3 :=
    registerHandler
      (registerHandler (registerHandler manager category hookName H1)
         category hookName H2)
      category hookName H3 in
  (∀ H1 H2 H3 defaultImplementation,
     runHandlerChain (registered H1 H2 H3) category hookName params
       defaultImplementation
     = H3 args
         (Some (λ params3,
            H2 params3
              (Some (λ params2, H1 params2 (Some defaultImplementation))))))
  ∧ (∀ label1 label2 label3 result sequence,
       runHandlerChain
         (registered (around notAFunction label1) (around notAFunction label2)
            (around notAFunction label3))
         category hookName params (recordingDefault result) sequence
       = (Returned result,
          sequence ++ [Entered label3 args; Entered label2 args;
                       Entered label1 args;
                       DefaultRan args;
                       Exited label1; Exited label2; Exited label3])).
Proof.
  intros Hempty args registered. split.
  - intros H1 H2 H3 defaultImplementation. unfold runHandlerChain, registered.
    by rewrite getHandlers_three.
  - intros label1 label2 label3 result sequence.
    unfold runHandlerChain, registered. rewrite getHandlers_three by done.
    rewrite !handlerParams_registerHandler. fold args.
    apply (chain_around [label3; label2; label1]).
Qed.

(** C8.  In the three dispatch primitives, what a handler receives is
    [params] itself when the category is "config", and otherwise [params]
    with the context of the manager put in front.  In a chain this is also
    what the default implementation receives. *)
Theorem handlers_receive_context_by_category
    manager category hookName params :
  let expected :=
    if decide (category = "config") then params
    else context manager :: params in
  (∀ labels result sequence,
     handlerSet manager category hookName = around notAFunction <$> labels →
     runHandlerChain manager category hookName params (recordingDefault result)
       sequence
     = (Returned result,
        sequence ++ ((λ l, Entered l expected) <$> reverse labels)
          ++ DefaultRan expected :: (Exited <$> labels)))
  ∧ (∀ reports sequence,
       handlerSet manager category hookName
       = (λ '(l, r), reporting l r) <$> reports →
       runSequentialHandlers manager category hookName params sequence
       = (Returned (reverse reports).*2,
          sequence ++ ((λ report, Entered report.1 expected) <$> reverse reports)))
  ∧ (∀ reports completionOrder sequence,
       handlerSet manager category hookName
       = (λ '(l, r), reporting l r) <$> reports →
       ∃ results events,
         runParallelHandlers manager category hookName params completionOrder
           sequence
         = (Returned results, sequence ++ events)
         ∧ Forall (λ e, ∃ l, e = Entered l expected) events
         ∧ (completionOrder ≡ₚ seq 0 (length reports) →
            length events = length reports)).
Proof.
  intros expected. split; [|split].
  - intros labels result sequence Hset.
    unfold runHandlerChain, getHandlers. rewrite Hset, <-fmap_reverse.
    fold expected. rewrite chain_around. by rewrite reverse_involutive.
  - intros reports sequence Hset.
    unfold runSequentialHandlers, getHandlers. rewrite Hset, <-fmap_reverse.
    apply callInTurn_reporting.
  - intros reports completionOrder sequence Hset.
    unfold runParallelHandlers, getHandlers. rewrite Hset, <-fmap_reverse.
    destruct (settle_reporting (reverse reports)
                (handlerParams manager category params) completionOrder
                (replicate
                   (length ((λ '(l, r), reporting (Exn:=Exn) l r)
                              <$> reverse reports)) None)
                sequence)
      as (results' & events & Hsettle & Hall & Hlen).
    exists (omap id results'), events. split; [|split; [done|]].
    + unfold mbind, Async_bind. by rewrite Hsettle.
    + intros Horder. rewrite length_reverse in Hlen. rewrite Hlen.
      * by rewrite Horder, length_seq.
      * rewrite Horder. apply Forall_forall. intros i Hi%elem_of_seq. lia.
Qed.
End RecordingFacts.


(** * The test-suite, run on the model *)

Section OnTheTestSuite.
Import TestSuite.
#[local] Existing Instance parametersJs.

(** "should throw if the default value does not match the type": the error
    is named ["defaultValue"], not ["foo"]. *)
Lemma invalid_default_error_is_named_defaultValue :
  isParameterValueValid BOOLEAN (VString "bar") = false
  ∧ buildGlobalParameterDefinition fooBoolean
    = Throw (INVALID_VALUE_FOR_TYPE (VString "bar") "defaultValue" (Some BOOLEAN))
  ∧ buildGlobalParameterDefinition fooBoolean
    ≠ Throw (INVALID_VALUE_FOR_TYPE (VString "bar") "foo" (Some BOOLEAN)).
Proof. split; [reflexivity|]. split; [by vm_compute|]. by vm_compute. Qed.

(** Without a declared type the default is validated against STRING, and the
    error carries no type. *)
Example invalid_default_without_declared_type :
  buildGlobalParameterDefinition
    (ParameterOptions.mk "foo" "Foo description" None (VBoolean true))
  = Throw (INVALID_VALUE_FOR_TYPE (VBoolean true) "defaultValue" None).
Proof. by vm_compute. Qed.

Lemma buildGlobalParameterDefinition_invalid_default_witness :
  ∃ type,
    buildGlobalParameterDefinition fooBoolean
    = Throw (INVALID_VALUE_FOR_TYPE (VString "bar") "defaultValue" type)
    ∧ ∀ declared, Some BOOLEAN = Some declared → type = Some declared.
Proof.
  apply (buildGlobalParameterDefinition_invalid_default fooBoolean).
  - reflexivity.
  - compute_done.
  - reflexivity.
Defined.

(** Two plugins declare ["foo bar"]: the first declaration is rejected for
    its name, before the second plugin is looked at. *)
Lemma earlier_invalid_definition_is_reported_first :
  buildGlobalParametersMap [plugin "plugin1" [fooBar]; plugin "plugin2" [fooBar]]
  = Throw (INVALID_NAME "foo bar")
  ∧ buildGlobalParametersMap
      [plugin "plugin1" [fooBar]; plugin "plugin2" [fooBar]]
    ≠ Throw (GLOBAL_PARAMETER_ALREADY_DEFINED "plugin2" "foo bar" "plugin1").
Proof. split; by vm_compute. Qed.

(** "should throw if a global parameter is already defined by another
    plugin" *)
Lemma redeclaration_reports_both_plugins_witness :
  buildGlobalParametersMap [plugin "plugin1" [param1]; plugin "plugin2" [param1']]
  = Throw (GLOBAL_PARAMETER_ALREADY_DEFINED "plugin2" "param1" "plugin1").
Proof.
  apply (redeclaration_reports_both_plugins
           [] (plugin "plugin1" [param1]) [] (plugin "plugin2" [param1']) []
           [param1] param1 [] param1' [] oneParam oneParam).
  - reflexivity.
  - apply list_elem_of_here.
  - reflexivity.
  - reflexivity.
  - by vm_compute.
  - reflexivity.
Defined.

(** The second plugin redeclares ["foo"] with a default value of the wrong
    type: the error is the one of the redeclaration. *)
Lemma duplicate_check_before_validation_witness :
  buildGlobalParameterDefinition fooBoolean
  = Throw (INVALID_VALUE_FOR_TYPE (VString "bar") "defaultValue" (Some BOOLEAN))
  ∧ buildGlobalParametersMap
      [plugin "plugin1" [booleanParam "foo" "Foo description" true];
       plugin "plugin2" [fooBoolean]]
    = Throw (GLOBAL_PARAMETER_ALREADY_DEFINED "plugin2" "foo" "plugin1").
Proof.
  split; [by vm_compute|].
  refine (proj1 (duplicate_check_before_validation
                   [plugin "plugin1" [booleanParam "foo" "Foo description" true]]
                   (plugin "plugin2" [fooBoolean]) [] [] fooBoolean []
                   _ _ (GlobalParametersMapEntry.mk "plugin1"
                          (GlobalParameter.mk "foo" "Foo description" BOOLEAN
                             (VBoolean true)))
                   eq_refl _ eq_refl _)).
  - by vm_compute.
  - reflexivity.
Defined.

(** "should ignore arguments that are not defined in the global parameters
    map": the call returns arguments, with [param1] as their only key. *)
Lemma resolveGlobalArguments_registry_only_witness :
  resolveGlobalArguments camelToSnakeCase parseMember
    {[ "HARDHAT_PARAM3" := "env" ]}
    (objectLiteral {[ "param1" := "false"; "param2" := "user" ]}) oneParam
  = resolveGlobalArguments camelToSnakeCase parseMember ∅
      (objectLiteral {[ "param1" := "false" ]}) oneParam
  ∧ ∃ ga,
      resolveGlobalArguments camelToSnakeCase parseMember
        {[ "HARDHAT_PARAM3" := "env" ]}
        (objectLiteral {[ "param1" := "false"; "param2" := "user" ]}) oneParam
      = Returns ga
      ∧ dom ga = list_to_set (Map_keys oneParam).
Proof.
  refine ((λ '(conj same (conj _ returns)), conj same (returns _))
            (resolveGlobalArguments_registry_only camelToSnakeCase parseMember
               {[ "HARDHAT_PARAM3" := "env" ]} ∅
               (objectLiteral {[ "param1" := "false"; "param2" := "user" ]})
               (objectLiteral {[ "param1" := "false" ]}) oneParam _ _ _)).
  - repeat constructor. eexists. by vm_compute.
  - compute_done.
  - intros name ->%list_elem_of_singleton. reflexivity.
  - intros name ->%list_elem_of_singleton. reflexivity.
Defined.

(** The same call, evaluated: [{ param1: false }]. *)
Example resolveGlobalArguments_ignores_param2 :
  resolveGlobalArguments camelToSnakeCase parseMember
    {[ "HARDHAT_PARAM3" := "env" ]}
    (objectLiteral {[ "param1" := "false"; "param2" := "user" ]}) oneParam
  = Returns {[ "param1" := Typed (VBoolean false) ]}.
Proof. by vm_compute. Qed.

(** [toString] passes the checks on names: a plugin can declare it. *)
Example toString_is_a_parameter_name :
  buildGlobalParametersMap [plugin "plugin1" [toStringParam; param1]]
  = Ok withToString.
Proof. by vm_compute. Qed.

(** C9 (the failing input).  The map holds [toString] and then [param1],
    both BOOLEAN, and the user's arguments are the object literal
    [{ param1: "not a boolean" }].  Before the string of [param1] is looked
    at, the [toString] that the object inherits is handed to
    [parseParameterValue]: when that call throws, its exception is what the
    call throws, and INVALID_VALUE_FOR_TYPE for [param1] is thrown only when
    it returns. *)
Theorem resolveGlobalArguments_member_before_unparsed_string
    (Other : Type)
    (parseInherited :
       string → ParameterType → string → Completion Other (JsValue Other))
    (env : ProcessEnv) :
  resolveGlobalArguments camelToSnakeCase parseInherited env
    (objectLiteral {[ "param1" := "not a boolean" ]}) withToString
  = match parseInherited "toString" BOOLEAN "toString" with
    | Returns _ =>
        Throws (HardhatThrown
                  (INVALID_VALUE_FOR_TYPE (VString "not a boolean") "param1"
                     (Some BOOLEAN)))
    | Throws thrown => Throws thrown
    end.
Proof.
  apply (resolveEntries_member_then_unparsed camelToSnakeCase parseInherited env
           (objectLiteral {[ "param1" := "not a boolean" ]}) ∅
           "toString" (GlobalParametersMapEntry.mk "plugin1"
                         (GlobalParameter.mk "toString" "toString description"
                            BOOLEAN (VBoolean true)))
           "param1" (GlobalParametersMapEntry.mk "plugin1"
                       (GlobalParameter.mk "param1" "param1 description"
                          BOOLEAN (VBoolean true)))
           "not a boolean").
  - by vm_compute.
  - reflexivity.
  - reflexivity.
Qed.

Lemma runHandlerChain_onion_witness :
  runHandlerChain chainOfThree "config" "extendUserConfig" ["{}"]
    (recordingDefault "{}") []
  = (Returned "{}",
     [Entered "third" ["{}"]; Entered "second" ["{}"]; Entered "first" ["{}"];
      DefaultRan ["{}"];
      Exited "first"; Exited "second"; Exited "third"]).
Proof.
  exact (proj2 (runHandlerChain_onion typeError newManager
                  "config" "extendUserConfig" ["{}"] eq_refl)
           "first" "second" "third" "{}" []).
Defined.

Lemma runSequentialHandlers_reverse_order_witness :
  runSequentialHandlers
    (registerHandler
       (registerHandler
          (registerHandler newManager "hre" "testExample" (constantly "first"))
          "hre" "testExample" (constantly "second"))
       "hre" "testExample" (constantly "third"))
    "hre" "testExample" ["input"] []
  = (Returned ["third"; "second"; "first"], []).
Proof.
  exact (proj2 (runSequentialHandlers_reverse_order newManager
                  "hre" "testExample"
                  (constantly "first") (constantly "second") (constantly "third")
                  ["input"] eq_refl)
           []).
Defined.

Lemma runParallelHandlers_keeps_dispatch_order_witness :
  (runParallelHandlers twoValidators "config" "validateUserConfig"
     ["originalConfig"] [1; 0] []).1
  = Returned ["second"; "first"]
  ∧ (runSequentialHandlers twoValidators "config" "validateUserConfig"
       ["originalConfig"] []).1
    = Returned ["second"; "first"].
Proof.
  apply (proj2 (proj2 (runParallelHandlers_keeps_dispatch_order twoValidators
                         "config" "validateUserConfig" ["originalConfig"] [1; 0]
                         (perm_swap 0 1 [])))).
  repeat constructor.
Defined.

Lemma handlers_receive_context_by_category_witness :
  runHandlerChain fetching "configurationVariables" "fetchValue"
    ["exampleConfigVar"] (recordingDefault "default-value") []
  = (Returned "default-value",
     [Entered "handler" ["context"; "exampleConfigVar"];
      DefaultRan ["context"; "exampleConfigVar"];
      Exited "handler"]).
Proof.
  exact (proj1 (handlers_receive_context_by_category typeError fetching
                  "configurationVariables" "fetchValue" ["exampleConfigVar"])
           ["handler"] "default-value" [] eq_refl).
Defined.
End OnTheTestSuite.


(** * More on the map of global parameters *)

Section DeclarationFacts.
Context `{ParametersJs}.
Implicit Types (m : GlobalParametersMap) (p q : ParameterOptions.t).
Implicit Types (ds : list (string * ParameterOptions.t)).

Lemma addGlobalParameters_addDeclarations pluginId ps m :
  addGlobalParameters pluginId ps m = addDeclarations (pair pluginId <$> ps) m.
Proof.
  revert m. induction ps as [|p ps IH]; intros m; simpl; [done|].
  destruct (Map_get m _); [done|].
  destruct (buildGlobalParameterDefinition p); simpl; [apply IH | done].
Qed.

Lemma addDeclarations_app ds1 ds2 m :
  addDeclarations (ds1 ++ ds2) m = addDeclarations ds1 m ≫= addDeclarations ds2.
Proof.
  revert m. induction ds1 as [|[pluginId p] ds1 IH]; intros m; simpl; [done|].
  destruct (Map_get m _); [done|].
  destruct (buildGlobalParameterDefinition p); simpl; [apply IH | done].
Qed.

(** The two nested loops are one loop over the declarations. *)
Lemma addPlugins_addDeclarations plugins m :
  addPlugins plugins m = addDeclarations (declarations plugins) m.
Proof.
  unfold declarations. revert m.
  induction plugins as [|plugin plugins IH]; intros m; simpl; [done|].
  rewrite addDeclarations_app.
  destruct (HardhatPlugin.globalParameters plugin) as [params|]; simpl.
  - rewrite <-addGlobalParameters_addDeclarations.
    destruct (addGlobalParameters _ params m); simpl; [apply IH | done].
  - apply IH.
Qed.

(** When the loop returns, and what it returns. *)
Lemma addDeclarations_Ok ds m0 m :
  addDeclarations ds m0 = Ok m ↔
  Forall (λ d, accepted d.2) ds
  ∧ NoDup (declaredName <$> ds)
  ∧ (∀ d, d ∈ ds → Map_get m0 (declaredName d) = None)
  ∧ m = m0 ++ (entryOf <$> ds).
Proof.
  unfold declaredName. revert m0.
  induction ds as [|[pluginId p] ds IH]; intros m0; simpl.
  - split.
    + intros [= <-]. rewrite app_nil_r. repeat split; try constructor.
      intros d Hd. by apply elem_of_nil in Hd.
    + intros (_ & _ & _ & ->). by rewrite app_nil_r.
  - split.
    + destruct (Map_get m0 (ParameterOptions.name p)) eqn:Hfresh; [done|].
      intros (g & Hg & Hrest)%Result_bind_Ok.
      pose proof Hg as Hbuilt.
      apply buildGlobalParameterDefinition_Ok in Hg as [-> _]. simpl in Hrest.
      apply IH in Hrest as (Hall & Hnodup & Hnew & ->).
      assert (∀ d, d ∈ ds → ParameterOptions.name d.2 ≠ ParameterOptions.name p)
        as Hne.
      { intros d Hd Heq. specialize (Hnew d Hd).
        rewrite Heq, Map_get_set_eq in Hnew. done. }
      split; [constructor; [by eexists | done]|].
      split; [|split].
      * constructor; [|done].
        intros (d & Heq & Hd)%list_elem_of_fmap. by apply (Hne d).
      * intros d [->|Hd]%elem_of_cons; [done|].
        specialize (Hnew d Hd). rewrite Map_get_set_ne in Hnew; [done|].
        intros Heq. by apply (Hne d).
      * rewrite Map_set_fresh by done. by rewrite <-app_assoc.
    + intros ([[g Hg] Hall]%Forall_cons & [Hp Hnodup]%NoDup_cons & Hnew & ->).
      pose proof (Hnew (pluginId, p) (list_elem_of_here _ _)) as Hfresh.
      simpl in Hfresh, Hg. rewrite Hfresh, Hg. simpl.
      apply buildGlobalParameterDefinition_Ok in Hg as [-> _]. simpl.
      apply IH. split; [done|]. split; [done|]. split.
      * intros d Hd. rewrite Map_get_set_ne.
        -- apply Hnew. by apply list_elem_of_further.
        -- intros Heq. apply Hp. apply list_elem_of_fmap. by exists d.
      * rewrite Map_set_fresh.
        -- by rewrite <-app_assoc.
        -- done.
Qed.
End DeclarationFacts.

Section BuildMore.
Context `{ParametersJs}.
Implicit Types (m : GlobalParametersMap) (p q : ParameterOptions.t).
Implicit Types (plugins : list HardhatPlugin.t).

(** X1.  A definition that [buildGlobalParameterDefinition] returned is
    accepted again, unchanged, when it is given back as an argument: the
    resolved type is kept, and the default value is validated against it a
    second time. *)
Theorem buildGlobalParameterDefinition_idempotent p g :
  buildGlobalParameterDefinition p = Ok g →
  buildGlobalParameterDefinition (toOptions g) = Ok g.
Proof.
  intros (-> & Hcasing & Hreserved & Hvalid)%buildGlobalParameterDefinition_Ok.
  unfold buildGlobalParameterDefinition, toOptions. simpl.
  rewrite Hcasing, Hvalid. simpl. by rewrite decide_False.
Qed.

(** X2.  When [buildGlobalParametersMap] returns a map, the map has one
    entry per declared parameter, in the order of the declarations, keyed by
    the name, owned by the declaring plugin and holding the definition with
    its type resolved; no name is declared twice and every declaration is one
    that [buildGlobalParameterDefinition] accepts. *)
Theorem buildGlobalParametersMap_entries plugins m :
  buildGlobalParametersMap plugins = Ok m →
  m = entryOf <$> declarations plugins
  ∧ NoDup (declaredName <$> declarations plugins)
  ∧ Forall (λ d, accepted d.2) (declarations plugins).
Proof.
  unfold buildGlobalParametersMap. rewrite addPlugins_addDeclarations.
  intros (Hall & Hnodup & _ & ->)%addDeclarations_Ok. done.
Qed.

(** X3.  [buildGlobalParametersMap] returns a map as soon as every declared
    parameter is accepted by [buildGlobalParameterDefinition] and no name is
    declared twice, whether by two plugins or by one. *)
Theorem buildGlobalParametersMap_returns plugins :
  Forall (λ d, accepted d.2) (declarations plugins) →
  NoDup (declaredName <$> declarations plugins) →
  buildGlobalParametersMap plugins = Ok (entryOf <$> declarations plugins).
Proof.
  intros Hall Hnodup. unfold buildGlobalParametersMap.
  rewrite addPlugins_addDeclarations. apply addDeclarations_Ok.
  split; [done|]. split; [done|]. split; done.
Qed.

(** X4.  The invariant of a map that [buildGlobalParametersMap] returned:
    no key occurs twice; every entry is stored under the name of its
    definition; that name passed the casing and the reserved-name checks; the
    default value is valid for the type of the definition; and the owner is
    the id of a plugin of the list that declares a parameter of that name. *)
Theorem buildGlobalParametersMap_invariant plugins m :
  buildGlobalParametersMap plugins = Ok m →
  NoDup (Map_keys m)
  ∧ ∀ key entry, (key, entry) ∈ m →
      let param := GlobalParametersMapEntry.param entry in
      GlobalParameter.name param = key
      ∧ isValidParamNameCasing key = true
      ∧ (key ∉ RESERVED_PARAMETER_NAMES)
      ∧ isParameterValueValid (GlobalParameter.parameterType param)
          (GlobalParameter.defaultValue param) = true
      ∧ ∃ plugin params p,
          plugin ∈ plugins
          ∧ HardhatPlugin.globalParameters plugin = Some params
          ∧ p ∈ params
          ∧ ParameterOptions.name p = key
          ∧ HardhatPlugin.id plugin = GlobalParametersMapEntry.pluginId entry.
Proof.
  unfold buildGlobalParametersMap. rewrite addPlugins_addDeclarations.
  intros (Hall & Hnodup & _ & ->)%addDeclarations_Ok. simpl. split.
  - unfold Map_keys. rewrite <-list_fmap_compose. exact Hnodup.
  - intros key entry (d & [= -> ->] & Hd)%list_elem_of_fmap. simpl.
    rewrite Forall_forall in Hall. destruct (Hall d Hd) as [g Hg].
    apply buildGlobalParameterDefinition_Ok in Hg as (_ & ? & ? & ?).
    do 4 (split; [done|]).
    apply list_elem_of_bind in Hd as (plugin & Hd & Hplugin).
    destruct (HardhatPlugin.globalParameters plugin) as [params|] eqn:Hparams;
      simpl in Hd; [|by apply elem_of_nil in Hd].
    apply list_elem_of_fmap in Hd as (p & -> & Hp).
    by exists plugin, params, p.
Qed.

(** X5.  Plugins listed later never change what the plugins before them
    gave: an error of a prefix of the list is the error of the whole list,
    and when the whole list builds a map, so does the prefix, and its map is
    the beginning of the map of the whole list. *)
Theorem buildGlobalParametersMap_prefix pre post :
  (∀ e, buildGlobalParametersMap pre = Throw e →
        buildGlobalParametersMap (pre ++ post) = Throw e)
  ∧ (∀ m, buildGlobalParametersMap (pre ++ post) = Ok m →
          ∃ m0 added, buildGlobalParametersMap pre = Ok m0 ∧ m = m0 ++ added).
Proof.
  unfold buildGlobalParametersMap. rewrite addPlugins_app. split.
  - intros e ->. done.
  - intros m (m0 & Hpre & Hpost)%Result_bind_Ok. exists m0.
    rewrite addPlugins_addDeclarations in Hpost.
    apply addDeclarations_Ok in Hpost as (_ & _ & _ & ->). by eexists.
Qed.

(** X6.  A plugin without [globalParameters], or with an empty list of
    them, can be taken out of the list, wherever it stands, without changing
    the map or the error. *)
Theorem buildGlobalParametersMap_skips_plugin pre plugin post :
  HardhatPlugin.globalParameters plugin = None
  ∨ HardhatPlugin.globalParameters plugin = Some [] →
  buildGlobalParametersMap (pre ++ plugin :: post)
  = buildGlobalParametersMap (pre ++ post).
Proof.
  intros Hnone. unfold buildGlobalParametersMap. rewrite !addPlugins_app.
  destruct (addPlugins pre []) as [m0|e]; simpl; [|done].
  by destruct Hnone as [-> | ->].
Qed.

(** X7.  A plugin that declares the same name twice is reported against
    itself: when the loop reaches the second declaration, the error carries
    the id of that plugin both as the offender and as the owner. *)
Theorem buildGlobalParametersMap_same_plugin_twice
    pre plugin post ps1 q ps2 p ps3 m0 m :
  HardhatPlugin.globalParameters plugin = Some (ps1 ++ q :: ps2 ++ p :: ps3) →
  ParameterOptions.name q = ParameterOptions.name p →
  addPlugins pre [] = Ok m0 →
  addGlobalParameters (HardhatPlugin.id plugin) (ps1 ++ q :: ps2) m0 = Ok m →
  buildGlobalParametersMap (pre ++ plugin :: post)
  = Throw (GLOBAL_PARAMETER_ALREADY_DEFINED
             (HardhatPlugin.id plugin) (ParameterOptions.name p)
             (HardhatPlugin.id plugin)).
Proof.
  intros Hparams Hname Hpre Hfirst.
  destruct (addGlobalParameters_owner _ _ _ _ q Hfirst)
    as (entry & Hentry & Howner).
  { apply elem_of_app. right. apply list_elem_of_here. }
  rewrite Hname in Hentry. rewrite <-Howner at 2.
  apply (addPlugins_redeclared pre plugin post (ps1 ++ q :: ps2) p ps3 m0 m entry);
    [|done..].
  by rewrite Hparams, <-app_assoc.
Qed.

(** Where the inner loop throws. *)
Lemma addGlobalParameters_Throw pluginId ps m0 e :
  addGlobalParameters pluginId ps m0 = Throw e →
  ∃ ps1 p ps2 m,
    ps = ps1 ++ p :: ps2
    ∧ addGlobalParameters pluginId ps1 m0 = Ok m
    ∧ ((∃ existingByName,
          Map_get m (ParameterOptions.name p) = Some existingByName
          ∧ e = GLOBAL_PARAMETER_ALREADY_DEFINED pluginId (ParameterOptions.name p)
                  (GlobalParametersMapEntry.pluginId existingByName))
       ∨ (Map_get m (ParameterOptions.name p) = None
          ∧ buildGlobalParameterDefinition p = Throw e)).
Proof.
  revert m0. induction ps as [|p ps IH]; intros m0; simpl; [done|].
  destruct (Map_get m0 (ParameterOptions.name p)) as [existing|] eqn:Hget.
  - intros [= <-]. exists [], p, ps, m0. split; [done|]. split; [done|].
    left. by exists existing.
  - destruct (buildGlobalParameterDefinition p) as [g|e'] eqn:Hg; simpl.
    + intros (ps1 & p' & ps2 & m & -> & Hps1 & Hcase)%IH.
      exists (p :: ps1), p', ps2, m. split; [done|]. split; [|done].
      simpl. by rewrite Hget, Hg.
    + intros [= <-]. exists [], p, ps, m0. split; [done|]. split; [done|].
      by right.
Qed.

(** Where the outer loop throws. *)
Lemma addPlugins_Throw plugins m e :
  addPlugins plugins m = Throw e →
  ∃ pre later post params m0,
    plugins = pre ++ later :: post
    ∧ HardhatPlugin.globalParameters later = Some params
    ∧ addPlugins pre m = Ok m0
    ∧ addGlobalParameters (HardhatPlugin.id later) params m0 = Throw e.
Proof.
  revert m. induction plugins as [|plugin plugins IH]; intros m; simpl; [done|].
  destruct (HardhatPlugin.globalParameters plugin) as [params|] eqn:Hparams.
  - destruct (addGlobalParameters _ params m) as [m1|e'] eqn:Hadd; simpl.
    + intros (pre & later & post & params' & m0 & -> & ? & Hpre & ?)%IH.
      exists (plugin :: pre), later, post, params', m0.
      split; [done|]. split; [done|]. split; [|done].
      simpl. by rewrite Hparams, Hadd.
    + intros [= <-]. by exists [], plugin, plugins, params, m.
  - intros (pre & later & post & params' & m0 & -> & ? & Hpre & ?)%IH.
    exists (plugin :: pre), later, post, params', m0.
    split; [done|]. split; [done|]. split; [|done].
    simpl. by rewrite Hparams.
Qed.

(** X8.  Every error of [buildGlobalParametersMap] comes from one declared
    parameter of one listed plugin, the first one the loops cannot add:
    everything before it was added, and either its name is in the map, and
    the error is GLOBAL_PARAMETER_ALREADY_DEFINED with the owner recorded in
    the map, or its name is new and the error is the one
    [buildGlobalParameterDefinition] throws on it. *)
Theorem buildGlobalParametersMap_error_origin plugins e :
  buildGlobalParametersMap plugins = Throw e →
  ∃ pre later post ps1 p ps2 m0 m,
    plugins = pre ++ later :: post
    ∧ HardhatPlugin.globalParameters later = Some (ps1 ++ p :: ps2)
    ∧ addPlugins pre [] = Ok m0
    ∧ addGlobalParameters (HardhatPlugin.id later) ps1 m0 = Ok m
    ∧ ((∃ existingByName,
          Map_get m (ParameterOptions.name p) = Some existingByName
          ∧ e = GLOBAL_PARAMETER_ALREADY_DEFINED
                  (HardhatPlugin.id later) (ParameterOptions.name p)
                  (GlobalParametersMapEntry.pluginId existingByName))
       ∨ (Map_get m (ParameterOptions.name p) = None
          ∧ buildGlobalParameterDefinition p = Throw e)).
Proof.
  intros (pre & later & post & params & m0 & -> & Hparams & Hpre & Hadd)
    %addPlugins_Throw.
  apply addGlobalParameters_Throw in Hadd
    as (ps1 & p & ps2 & m & -> & Hps1 & Hcase).
  by exists pre, later, post, ps1, p, ps2, m0, m.
Qed.

(** X9.  The order of the plugins does not matter to whether a map is
    built, nor to its entries: when a list of plugins builds a map, the same
    plugins in any other order build a map with the same entries, in another
    order. *)
Theorem buildGlobalParametersMap_permutation plugins plugins' m :
  plugins ≡ₚ plugins' →
  buildGlobalParametersMap plugins = Ok m →
  ∃ m', buildGlobalParametersMap plugins' = Ok m' ∧ m' ≡ₚ m.
Proof.
  intros Hplugins. unfold buildGlobalParametersMap.
  rewrite !addPlugins_addDeclarations.
  intros (Hall & Hnodup & _ & ->)%addDeclarations_Ok.
  assert (declarations plugins ≡ₚ declarations plugins') as Hperm.
  { unfold declarations. by rewrite Hplugins. }
  exists (entryOf <$> declarations plugins'). split.
  - apply addDeclarations_Ok.
    split; [by rewrite <-Hperm|]. split; [by rewrite <-Hperm|]. done.
  - simpl. by rewrite Hperm.
Qed.

(** Where the loop over the declarations throws. *)
Lemma addDeclarations_Throw (ds : list (string * ParameterOptions.t)) m0 e :
  addDeclarations ds m0 = Throw e →
  ∃ ds1 d ds2 m,
    ds = ds1 ++ d :: ds2
    ∧ addDeclarations ds1 m0 = Ok m
    ∧ ((∃ existingByName,
          Map_get m (declaredName d) = Some existingByName
          ∧ e = GLOBAL_PARAMETER_ALREADY_DEFINED d.1 (declaredName d)
                  (GlobalParametersMapEntry.pluginId existingByName))
       ∨ buildGlobalParameterDefinition d.2 = Throw e).
Proof.
  unfold declaredName. revert m0.
  induction ds as [|[pluginId p] ds IH]; intros m0; simpl; [done|].
  destruct (Map_get m0 (ParameterOptions.name p)) as [existing|] eqn:Hget.
  - intros [= <-]. exists [], (pluginId, p), ds, m0.
    split; [done|]. split; [done|]. left. by exists existing.
  - destruct (buildGlobalParameterDefinition p) as [g|e'] eqn:Hg; simpl.
    + intros (ds1 & d & ds2 & m & -> & Hds1 & Hcase)%IH.
      exists ((pluginId, p) :: ds1), d, ds2, m. split; [done|]. split; [|done].
      simpl. by rewrite Hget, Hg.
    + intros [= <-]. exists [], (pluginId, p), ds, m0.
      split; [done|]. split; [done|]. by right.
Qed.

(** X15.  A GLOBAL_PARAMETER_ALREADY_DEFINED error always speaks of two
    declarations of the list: one by the plugin carried as the owner, and a
    later one by the plugin carried as the offender, both under the name the
    error carries. *)
Theorem buildGlobalParametersMap_conflict_origin plugins offender name owner :
  buildGlobalParametersMap plugins
  = Throw (GLOBAL_PARAMETER_ALREADY_DEFINED offender name owner) →
  ∃ before p1 between p2 after,
    declarations plugins
    = before ++ (owner, p1) :: between ++ (offender, p2) :: after
    ∧ ParameterOptions.name p1 = name
    ∧ ParameterOptions.name p2 = name.
Proof.
  unfold buildGlobalParametersMap. rewrite addPlugins_addDeclarations.
  intros (ds1 & [pluginId p2] & ds2 & m & Hsplit & Hds1 & Hcase)
    %addDeclarations_Throw.
  destruct Hcase as [(existing & Hget & Herror)|Hrejected].
  - injection Herror as -> Hname ->. unfold declaredName in Hname, Hget.
    simpl in Hname, Hget.
    apply addDeclarations_Ok in Hds1 as (_ & _ & _ & ->).
    apply Map_get_Some_elem in Hget. rewrite app_nil_l in Hget.
    apply list_elem_of_fmap in Hget as ([owner p1] & Hentry & Hd1).
    injection Hentry as Hname1 ->. simpl in Hname1.
    apply list_elem_of_split in Hd1 as (before & between & ->).
    exists before, p1, between, p2, ds2.
    split; [|by rewrite <-Hname1, Hname]. by rewrite Hsplit, <-app_assoc.
  - by destruct (buildGlobalParameterDefinition_Throw _ _ Hrejected)
      as [?|[?|?]].
Qed.
End BuildMore.

(** * More on the resolution of the global arguments *)

Section ResolveMore.
Context `{ParametersJs} {Other : Type}.
Variable camelToSnakeCase : string → string.
Variable parseInherited :
  string → ParameterType → string → Completion Other (JsValue Other).
Implicit Types (env : ProcessEnv) (user : UserProvidedGlobalArguments.t).
Implicit Types (entries : GlobalParametersMap) (acc ga : GlobalArguments Other).

(** The environment is read for a name only when the read of the user's
    object gives [undefined]. *)
Lemma resolveEntries_env_when_absent env env' user entries acc :
  (∀ name, name ∈ Map_keys entries → readProperty user name = None →
           env !! envVariableName camelToSnakeCase name
           = env' !! envVariableName camelToSnakeCase name) →
  resolveEntries camelToSnakeCase parseInherited env user entries acc
  = resolveEntries camelToSnakeCase parseInherited env' user entries acc.
Proof.
  unfold Map_keys. revert acc.
  induction entries as [|[n e] entries IH]; intros acc Henv; simpl; [done|].
  assert (resolveEntry camelToSnakeCase parseInherited env user n
            (GlobalParametersMapEntry.param e)
          = resolveEntry camelToSnakeCase parseInherited env' user n
              (GlobalParametersMapEntry.param e)) as ->.
  { unfold resolveEntry, rawValue.
    destruct (readProperty user n) eqn:Huser; [done|].
    rewrite (Henv n); [done | apply list_elem_of_here | done]. }
  destruct (resolveEntry camelToSnakeCase parseInherited env' user n _);
    simpl; [|done].
  apply IH. intros name Hin. apply Henv. simpl. by apply list_elem_of_further.
Qed.

(** X10.  When, for every name of the map, the user's object has no
    property, own or inherited, and the environment no variable,
    [resolveGlobalArguments] never throws, whatever the parsing rules are:
    it returns arguments whose keys are the names of the map ([__proto__]
    apart, which is never stored) and whose values are the default values of
    the definitions, as they are. *)
Theorem resolveGlobalArguments_defaults
    env user (globalParametersMap : GlobalParametersMap) :
  NoDup (Map_keys globalParametersMap) →
  (∀ name, name ∈ Map_keys globalParametersMap →
           readProperty user name = None
           ∧ env !! envVariableName camelToSnakeCase name = None) →
  ∃ ga,
    resolveGlobalArguments camelToSnakeCase parseInherited env user
      globalParametersMap
    = Returns ga
    ∧ dom ga = list_to_set (Map_keys globalParametersMap) ∖ {["__proto__"]}
    ∧ ∀ name entry, (name, entry) ∈ globalParametersMap →
        name ≠ "__proto__" →
        ga !! name
        = Some (Typed (GlobalParameter.defaultValue
                         (GlobalParametersMapEntry.param entry))).
Proof.
  intros Hnodup Hnone.
  assert (∀ name entry, (name, entry) ∈ globalParametersMap →
            resolveEntry camelToSnakeCase parseInherited env user name
              (GlobalParametersMapEntry.param entry)
            = Returns (Typed (GlobalParameter.defaultValue
                                (GlobalParametersMapEntry.param entry))))
    as Hdefault.
  { intros name entry Hin. unfold resolveEntry, rawValue.
    destruct (Hnone name) as [-> ->]; [|done].
    apply list_elem_of_fmap. by exists (name, entry). }
  destruct (resolveEntries_returns camelToSnakeCase parseInherited env user
              globalParametersMap ∅) as [ga Hga].
  { apply Forall_forall. intros [n e] Hin. eexists. by apply Hdefault. }
  exists ga. split; [done|]. split.
  - rewrite (resolveEntries_dom _ _ _ _ _ _ _ Hga), dom_empty_L.
    by rewrite (right_id_L ∅ (∪)).
  - intros name entry Hin Hname.
    destruct (resolveEntries_lookup _ _ _ _ _ _ _ _ _ Hga Hnodup Hin Hname)
      as (v & Hv & ->).
    rewrite Hdefault in Hv by done. by injection Hv as <-.
Qed.

(** X11.  The environment is consulted for a parameter only when the read
    of the user's object gives nothing for it: two environments that agree
    on the variables of the names the user left out give the same outcome,
    whatever else they hold, also for the names the user provided. *)
Theorem resolveGlobalArguments_env_only_when_absent
    env env' user (globalParametersMap : GlobalParametersMap) :
  (∀ name, name ∈ Map_keys globalParametersMap → readProperty user name = None →
           env !! envVariableName camelToSnakeCase name
           = env' !! envVariableName camelToSnakeCase name) →
  resolveGlobalArguments camelToSnakeCase parseInherited env user
    globalParametersMap
  = resolveGlobalArguments camelToSnakeCase parseInherited env' user
      globalParametersMap.
Proof. apply resolveEntries_env_when_absent. Qed.

(** X12.  [resolveGlobalArguments] returns arguments exactly when, for every
    entry of the map, the value chosen for it, if there is one, is one on
    which [parseParameterValue] returns: a string that parses against the
    type of the entry, or an inherited member on which the parser
    returns. *)
Theorem resolveGlobalArguments_returns_iff
    env user (globalParametersMap : GlobalParametersMap) :
  (∃ ga,
     resolveGlobalArguments camelToSnakeCase parseInherited env user
       globalParametersMap
     = Returns ga)
  ↔ Forall
      (λ '(name, entry),
         let type :=
           GlobalParameter.parameterType (GlobalParametersMapEntry.param entry) in
         match rawValue camelToSnakeCase env user name with
         | Some (RawString value) =>
             ∃ v, parseParameterValue value type name = Ok v
         | Some (RawMember member) =>
             ∃ v, parseInherited member type name = Returns v
         | None => True
         end)
      globalParametersMap.
Proof.
  assert (∀ n e,
            (∃ v, resolveEntry camelToSnakeCase parseInherited env user n
                    (GlobalParametersMapEntry.param e) = Returns v)
            ↔ match rawValue camelToSnakeCase env user n with
              | Some (RawString value) =>
                  ∃ v, parseParameterValue value
                         (GlobalParameter.parameterType
                            (GlobalParametersMapEntry.param e)) n = Ok v
              | Some (RawMember member) =>
                  ∃ v, parseInherited member
                         (GlobalParameter.parameterType
                            (GlobalParametersMapEntry.param e)) n = Returns v
              | None => True
              end) as Hentry.
  { intros n e. unfold resolveEntry, parseRawValue.
    destruct (rawValue camelToSnakeCase env user n) as [[value|member]|].
    - destruct (parseParameterValue value _ n) as [v|err].
      + split; by eexists.
      + split; [by intros [? ?] | by intros [? ?]].
    - done.
    - split; [done | by eexists]. }
  split.
  - intros [ga Hga%resolveEntries_Returns_all].
    eapply Forall_impl; [exact Hga|]. intros [n e] Hv. by apply Hentry.
  - intros Hall. apply resolveEntries_returns.
    eapply Forall_impl; [exact Hall|]. intros [n e] Hv. by apply Hentry.
Qed.

(** X13.  The arguments do not depend on the order of the entries of the
    map: when a map resolves, a map with the same entries in another order
    resolves to the same arguments. *)
Theorem resolveGlobalArguments_order_independent
    env user (globalParametersMap globalParametersMap' : GlobalParametersMap)
    ga :
  NoDup (Map_keys globalParametersMap) →
  globalParametersMap ≡ₚ globalParametersMap' →
  resolveGlobalArguments camelToSnakeCase parseInherited env user
    globalParametersMap
  = Returns ga →
  resolveGlobalArguments camelToSnakeCase parseInherited env user
    globalParametersMap'
  = Returns ga.
Proof.
  intros Hnodup Hperm Hga.
  assert (NoDup (Map_keys globalParametersMap')) as Hnodup'.
  { unfold Map_keys in *. by rewrite <-Hperm. }
  destruct (resolveEntries_returns camelToSnakeCase parseInherited env user
              globalParametersMap' ∅) as [ga' Hga'].
  { rewrite <-Hperm. by eapply resolveEntries_Returns_all. }
  unfold resolveGlobalArguments. rewrite Hga'. f_equal.
  apply map_eq. intros name.
  destruct (decide (name = "__proto__")) as [->|Hname].
  { transitivity (@None (JsValue Other)); [|symmetry].
    - apply not_elem_of_dom.
      rewrite (resolveEntries_dom _ _ _ _ _ _ _ Hga'). set_unfold; intuition congruence.
    - apply not_elem_of_dom.
      rewrite (resolveEntries_dom _ _ _ _ _ _ _ Hga). set_unfold; intuition congruence. }
  destruct (decide (name ∈ Map_keys globalParametersMap)) as [Hin|Hnotin].
  - apply list_elem_of_fmap in Hin as ([n entry] & -> & Hin). simpl in *.
    destruct (resolveEntries_lookup _ _ _ _ _ _ _ _ _ Hga Hnodup Hin Hname)
      as (v & Hv & ->).
    rewrite Hperm in Hin.
    destruct (resolveEntries_lookup _ _ _ _ _ _ _ _ _ Hga' Hnodup' Hin Hname)
      as (v' & Hv' & ->).
    congruence.
  - rewrite (resolveEntries_other _ _ _ _ _ _ _ _ Hga Hnotin).
    unfold Map_keys in Hnotin. rewrite Hperm in Hnotin.
    by rewrite (resolveEntries_other _ _ _ _ _ _ _ _ Hga' Hnotin).
Qed.

(** X16.  Where the value of a parameter comes from, when the call returns:
    from the own property of the user's object, a string that is parsed
    against the type of the definition; without an own property, from the
    member of that name that the object inherits, which is handed to the
    parser as it is; without either, from the variable HARDHAT_<NAME>, parsed
    in the same way; and with none of the three, it is the [defaultValue] of
    the definition, untouched. *)
Theorem resolveGlobalArguments_source_of_value
    env user (globalParametersMap : GlobalParametersMap) ga name entry :
  NoDup (Map_keys globalParametersMap) →
  Map_get globalParametersMap name = Some entry →
  name ≠ "__proto__" →
  resolveGlobalArguments camelToSnakeCase parseInherited env user
    globalParametersMap
  = Returns ga →
  let param := GlobalParametersMapEntry.param entry in
  let type := GlobalParameter.parameterType param in
  let parsed value :=
    ∃ v, parseParameterValue value type name = Ok v
         ∧ ga !! name = Some (Typed v) in
  match UserProvidedGlobalArguments.own user !! name with
  | Some value => parsed value
  | None =>
      if decide (name ∈ UserProvidedGlobalArguments.inherited user)
      then ∃ v, parseInherited name type name = Returns v ∧ ga !! name = Some v
      else
        match env !! envVariableName camelToSnakeCase name with
        | Some value => parsed value
        | None => ga !! name = Some (Typed (GlobalParameter.defaultValue param))
        end
  end.
Proof.
  intros Hnodup Hget%Map_get_Some_elem Hname Hga.
  destruct (resolveEntries_lookup _ _ _ _ _ _ _ _ _ Hga Hnodup Hget Hname)
    as (v & Hv & Hlookup).
  unfold resolveEntry, rawValue, readProperty in Hv. simpl.
  assert (∀ value,
            parseRawValue parseInherited (RawString value)
              (GlobalParameter.parameterType (GlobalParametersMapEntry.param entry))
              name = Returns v →
            ∃ v0, parseParameterValue value
                    (GlobalParameter.parameterType
                       (GlobalParametersMapEntry.param entry)) name = Ok v0
                  ∧ ga !! name = Some (Typed v0)) as Hstring.
  { intros value. unfold parseRawValue.
    destruct (parseParameterValue value _ name) as [v0|err]; [|done].
    intros [= <-]. by exists v0. }
  destruct (UserProvidedGlobalArguments.own user !! name) as [value|];
    [by apply Hstring|].
  case_decide; simpl in Hv; [by exists v|].
  destruct (env !! _) as [value|]; simpl in Hv; [by apply Hstring|].
  by injection Hv as <-.
Qed.

(** X17.  A string chosen for a parameter, from an own property of the
    user's object or from the environment, that does not parse makes the
    whole call throw: no arguments are returned; and when the entries before
    that parameter resolve, what is thrown is INVALID_VALUE_FOR_TYPE with
    that string, the name and the type of the parameter. *)
Theorem resolveGlobalArguments_unparsed_string_aborts
    env user (globalParametersMap : GlobalParametersMap) name entry value :
  (name, entry) ∈ globalParametersMap →
  rawValue camelToSnakeCase env user name = Some (RawString value) →
  parseRule (GlobalParameter.parameterType (GlobalParametersMapEntry.param entry))
    value = None →
  (∀ ga,
     resolveGlobalArguments camelToSnakeCase parseInherited env user
       globalParametersMap
     ≠ Returns ga)
  ∧ ∀ pre post,
      globalParametersMap = pre ++ (name, entry) :: post →
      Forall
        (λ '(n, e),
           ∃ v, resolveEntry camelToSnakeCase parseInherited env user n
                  (GlobalParametersMapEntry.param e) = Returns v) pre →
      resolveGlobalArguments camelToSnakeCase parseInherited env user
        globalParametersMap
      = Throws (HardhatThrown
                  (INVALID_VALUE_FOR_TYPE (VString value) name
                     (Some (GlobalParameter.parameterType
                              (GlobalParametersMapEntry.param entry))))).
Proof.
  intros Hin Hraw Hparse.
  pose proof (resolveEntry_unparsed camelToSnakeCase parseInherited env user
                name (GlobalParametersMapEntry.param entry) value Hraw Hparse)
    as Hthrows.
  split.
  - intros ga Hga%resolveEntries_Returns_all.
    rewrite Forall_forall in Hga. destruct (Hga _ Hin) as [v Hv]. congruence.
  - intros pre post -> Hpre. by apply resolveEntries_first_throw.
Qed.
End ResolveMore.

(** * From the plugins to the arguments *)

Section EndToEnd.
Context `{ParametersJs} {Other : Type}.
Variable camelToSnakeCase : string → string.
Variable parseInherited :
  string → ParameterType → string → Completion Other (JsValue Other).

(** X14.  When the values that [parseParameterValue] returns on strings are
    valid for the type they were parsed against, and no declared name is
    read from the user's object as an inherited member, the arguments
    resolved against a map that [buildGlobalParametersMap] built have the
    names the plugins declared as keys ([__proto__] apart), and each value is
    a typed value, valid for the type of its definition, whether it was
    parsed from a string or is the default value. *)
Theorem resolved_arguments_are_valid plugins m env user ga :
  (∀ value type name v,
     parseParameterValue value type name = Ok v →
     isParameterValueValid type v = true) →
  (∀ name member, name ∈ Map_keys m →
                  readProperty user name ≠ Some (RawMember member)) →
  buildGlobalParametersMap plugins = Ok m →
  resolveGlobalArguments camelToSnakeCase parseInherited env user m = Returns ga →
  dom ga
  = list_to_set (declaredName <$> declarations plugins) ∖ {["__proto__"]}
  ∧ ∀ name value, ga !! name = Some value →
      ∃ entry v,
        Map_get m name = Some entry
        ∧ value = Typed v
        ∧ isParameterValueValid
            (GlobalParameter.parameterType (GlobalParametersMapEntry.param entry))
            v = true.
Proof.
  intros Hparser Hmembers Hbuild Hga. unfold buildGlobalParametersMap in Hbuild.
  rewrite addPlugins_addDeclarations in Hbuild.
  apply addDeclarations_Ok in Hbuild as (Hall & Hnodup & _ & ->).
  rewrite app_nil_l in Hga |- *. cbn [app] in Hmembers.
  unfold resolveGlobalArguments in Hga.
  assert (Map_keys (entryOf <$> declarations plugins)
          = declaredName <$> declarations plugins) as Hkeys.
  { unfold Map_keys. by rewrite <-list_fmap_compose. }
  assert (dom ga
          = list_to_set (declaredName <$> declarations plugins) ∖ {["__proto__"]})
    as Hdom.
  { rewrite (resolveEntries_dom camelToSnakeCase parseInherited _ _ _ _ _ Hga).
    by rewrite dom_empty_L, Hkeys, (right_id_L ∅ (∪)). }
  split; [done|]. intros name value Hvalue.
  assert (name ∈ dom ga) as Hin by (apply elem_of_dom; by exists value).
  rewrite Hdom, elem_of_difference, elem_of_list_to_set, elem_of_singleton in Hin.
  destruct Hin as [Hin Hname].
  apply list_elem_of_fmap in Hin as (d & -> & Hd).
  assert (entryOf d ∈ entryOf <$> declarations plugins) as Hentry.
  { apply list_elem_of_fmap. by exists d. }
  destruct (resolveEntries_lookup camelToSnakeCase parseInherited env user _ ∅ ga
              (declaredName d) (entryOf d).2 Hga) as (v' & Hv' & Hlookup);
    [by rewrite Hkeys | done | done |].
  rewrite Hlookup in Hvalue. injection Hvalue as ->.
  exists (entryOf d).2.
  assert (Map_get (entryOf <$> declarations plugins) (declaredName d)
          = Some (entryOf d).2) as Hget.
  { apply Map_get_unique; [by rewrite Hkeys | done]. }
  unfold resolveEntry, rawValue in Hv'.
  destruct (readProperty user (declaredName d)) as [[s|member]|] eqn:Hread.
  - unfold parseRawValue in Hv'.
    destruct (parseParameterValue s _ _) as [v|err] eqn:Hparse; [|done].
    injection Hv' as <-. exists v. split; [done|]. split; [done|].
    by eapply Hparser.
  - destruct (Hmembers (declaredName d) member); [|done].
    rewrite Hkeys. apply list_elem_of_fmap. by exists d.
  - destruct (env !! _) as [s|]; simpl in Hv'.
    + unfold parseRawValue in Hv'.
      destruct (parseParameterValue s _ _) as [v|err] eqn:Hparse; [|done].
      injection Hv' as <-. exists v. split; [done|]. split; [done|].
      by eapply Hparser.
    + injection Hv' as <-. eexists. split; [done|]. split; [done|]. simpl.
      rewrite Forall_forall in Hall. destruct (Hall d Hd) as [g Hg].
      by apply buildGlobalParameterDefinition_Ok in Hg as (_ & _ & _ & ?).
Qed.
End EndToEnd.


(** * The test-suite, continued *)

Section OnTheTestSuiteMore.
Import TestSuite.
#[local] Existing Instance parametersJs.

(** [param2] is declared without a type and built as a STRING parameter. *)
Lemma buildGlobalParameterDefinition_idempotent_witness :
  buildGlobalParameterDefinition
    (toOptions
       (GlobalParameter.mk "param2" "param2 description" STRING
          (VString "default")))
  = Ok (GlobalParameter.mk "param2" "param2 description" STRING
          (VString "default")).
Proof.
  apply (buildGlobalParameterDefinition_idempotent param2). by vm_compute.
Defined.

Lemma buildGlobalParametersMap_entries_witness :
  threeParams
  = entryOf <$> declarations [plugin "plugin1" [param1; param2; param3]]
  ∧ NoDup (declaredName
             <$> declarations [plugin "plugin1" [param1; param2; param3]])
  ∧ Forall (λ d, accepted d.2)
      (declarations [plugin "plugin1" [param1; param2; param3]]).
Proof.
  apply buildGlobalParametersMap_entries. by vm_compute.
Defined.

Lemma buildGlobalParametersMap_returns_witness :
  buildGlobalParametersMap
    [plugin "plugin1" [param1; param2]; plugin "plugin2" [param3]]
  = Ok (entryOf
          <$> declarations
                [plugin "plugin1" [param1; param2]; plugin "plugin2" [param3]]).
Proof.
  apply buildGlobalParametersMap_returns.
  - repeat constructor; eexists; by vm_compute.
  - compute_done.
Defined.

Lemma buildGlobalParametersMap_invariant_witness :
  NoDup (Map_keys threeParams)
  ∧ ∀ key entry, (key, entry) ∈ threeParams →
      let param := GlobalParametersMapEntry.param entry in
      GlobalParameter.name param = key
      ∧ isValidParamNameCasing key = true
      ∧ (key ∉ RESERVED_PARAMETER_NAMES)
      ∧ isParameterValueValid (GlobalParameter.parameterType param)
          (GlobalParameter.defaultValue param) = true
      ∧ ∃ owner params p,
          owner ∈ [plugin "plugin1" [param1; param2; param3]]
          ∧ HardhatPlugin.globalParameters owner = Some params
          ∧ p ∈ params
          ∧ ParameterOptions.name p = key
          ∧ HardhatPlugin.id owner = GlobalParametersMapEntry.pluginId entry.
Proof.
  apply buildGlobalParametersMap_invariant. by vm_compute.
Defined.

(** A second plugin that declares [param3] extends the map of the first. *)
Lemma buildGlobalParametersMap_prefix_witness :
  ∃ m0 added,
    buildGlobalParametersMap [plugin "plugin1" [param1; param2]] = Ok m0
    ∧ built (buildGlobalParametersMap
               [plugin "plugin1" [param1; param2]; plugin "plugin2" [param3]])
      = m0 ++ added.
Proof.
  apply (proj2 (buildGlobalParametersMap_prefix
                  [plugin "plugin1" [param1; param2]]
                  [plugin "plugin2" [param3]])).
  by vm_compute.
Defined.

(** "should build an empty map of global parameters if there are no global
    parameters defined by plugins" *)
Lemma buildGlobalParametersMap_skips_plugin_witness :
  buildGlobalParametersMap [HardhatPlugin.mk "plugin1" None]
  = buildGlobalParametersMap [].
Proof.
  apply (buildGlobalParametersMap_skips_plugin [] (HardhatPlugin.mk "plugin1" None) []).
  by left.
Defined.

Lemma buildGlobalParametersMap_same_plugin_twice_witness :
  buildGlobalParametersMap [plugin "plugin1" [param1; param2; param1']]
  = Throw (GLOBAL_PARAMETER_ALREADY_DEFINED "plugin1" "param1" "plugin1").
Proof.
  apply (buildGlobalParametersMap_same_plugin_twice
           [] (plugin "plugin1" [param1; param2; param1']) []
           [] param1 [param2] param1' [] [] twoParams).
  - reflexivity.
  - reflexivity.
  - reflexivity.
  - by vm_compute.
Defined.

(** "should throw if a parameter name is not valid" *)
Lemma buildGlobalParametersMap_error_origin_witness :
  ∃ pre later post ps1 p ps2 m0 m,
    [plugin "plugin1" [fooBar]] = pre ++ later :: post
    ∧ HardhatPlugin.globalParameters later = Some (ps1 ++ p :: ps2)
    ∧ addPlugins pre [] = Ok m0
    ∧ addGlobalParameters (HardhatPlugin.id later) ps1 m0 = Ok m
    ∧ ((∃ existingByName,
          Map_get m (ParameterOptions.name p) = Some existingByName
          ∧ INVALID_NAME "foo bar"
            = GLOBAL_PARAMETER_ALREADY_DEFINED
                (HardhatPlugin.id later) (ParameterOptions.name p)
                (GlobalParametersMapEntry.pluginId existingByName))
       ∨ (Map_get m (ParameterOptions.name p) = None
          ∧ buildGlobalParameterDefinition p = Throw (INVALID_NAME "foo bar"))).
Proof.
  apply buildGlobalParametersMap_error_origin. by vm_compute.
Defined.

Lemma buildGlobalParametersMap_permutation_witness :
  ∃ m',
    buildGlobalParametersMap
      [plugin "plugin2" [param3]; plugin "plugin1" [param1; param2]]
    = Ok m'
    ∧ m' ≡ₚ entryOf
              <$> declarations
                    [plugin "plugin1" [param1; param2]; plugin "plugin2" [param3]].
Proof.
  apply (buildGlobalParametersMap_permutation
           [plugin "plugin1" [param1; param2]; plugin "plugin2" [param3]]).
  - apply perm_swap.
  - by vm_compute.
Defined.

(** "should throw if a global parameter is already defined by another
    plugin" *)
Lemma buildGlobalParametersMap_conflict_origin_witness :
  ∃ before p1 between p2 after,
    declarations [plugin "plugin1" [param1]; plugin "plugin2" [param1']]
    = before ++ ("plugin1", p1) :: between ++ ("plugin2", p2) :: after
    ∧ ParameterOptions.name p1 = "param1"
    ∧ ParameterOptions.name p2 = "param1".
Proof.
  apply buildGlobalParametersMap_conflict_origin. by vm_compute.
Defined.

(** "should resolve to the default values when no arguments are provided" *)
Lemma resolveGlobalArguments_defaults_witness :
  ∃ ga,
    resolveGlobalArguments camelToSnakeCase parseMember ∅ (objectLiteral ∅)
      twoParams
    = Returns ga
    ∧ dom ga = list_to_set (Map_keys twoParams) ∖ {["__proto__"]}
    ∧ ∀ name entry, (name, entry) ∈ twoParams →
        name ≠ "__proto__" →
        ga !! name
        = Some (Typed (GlobalParameter.defaultValue
                         (GlobalParametersMapEntry.param entry))).
Proof.
  apply resolveGlobalArguments_defaults.
  - compute_done.
  - intros name Hin. split; [|by rewrite lookup_empty].
    apply elem_of_cons in Hin as [->|Hin]; [by vm_compute|].
    apply list_elem_of_singleton in Hin as ->. by vm_compute.
Defined.

(** "should resolve to the user provided arguments over the environment
    variables" *)
Lemma resolveGlobalArguments_env_only_when_absent_witness :
  resolveGlobalArguments camelToSnakeCase parseMember
    {[ "HARDHAT_PARAM2" := "env" ]}
    (objectLiteral {[ "param1" := "false"; "param2" := "user" ]}) twoParams
  = resolveGlobalArguments camelToSnakeCase parseMember ∅
      (objectLiteral {[ "param1" := "false"; "param2" := "user" ]}) twoParams.
Proof.
  apply resolveGlobalArguments_env_only_when_absent.
  intros name Hin Hnone. exfalso.
  apply elem_of_cons in Hin as [->|Hin]; [by vm_compute in Hnone|].
  apply list_elem_of_singleton in Hin as ->. by vm_compute in Hnone.
Defined.

Lemma resolveGlobalArguments_order_independent_witness :
  resolveGlobalArguments camelToSnakeCase parseMember
    {[ "HARDHAT_PARAM3" := "5n" ]}
    (objectLiteral {[ "param1" := "false"; "param2" := "user" ]})
    (reverse threeParams)
  = Returns
      (resolved
         (resolveGlobalArguments camelToSnakeCase parseMember
            {[ "HARDHAT_PARAM3" := "5n" ]}
            (objectLiteral {[ "param1" := "false"; "param2" := "user" ]})
            threeParams)).
Proof.
  apply (resolveGlobalArguments_order_independent camelToSnakeCase parseMember
           {[ "HARDHAT_PARAM3" := "5n" ]}
           (objectLiteral {[ "param1" := "false"; "param2" := "user" ]})
           threeParams).
  - compute_done.
  - symmetry. apply reverse_Permutation.
  - by vm_compute.
Defined.

(** "should resolve to the user provided arguments and env variables":
    [param3] has no user value and is read from HARDHAT_PARAM3. *)
Lemma resolveGlobalArguments_source_of_value_witness :
  ∃ v, parseParameterValue "5n" BIGINT "param3" = Ok v
       ∧ resolved
           (resolveGlobalArguments camelToSnakeCase parseMember
              {[ "HARDHAT_PARAM3" := "5n" ]}
              (objectLiteral {[ "param1" := "false"; "param2" := "user" ]})
              threeParams)
         !! "param3" = Some (Typed v).
Proof.
  refine (resolveGlobalArguments_source_of_value camelToSnakeCase parseMember
            {[ "HARDHAT_PARAM3" := "5n" ]}
            (objectLiteral {[ "param1" := "false"; "param2" := "user" ]})
            threeParams _ "param3"
            (GlobalParametersMapEntry.mk "plugin1"
               (GlobalParameter.mk "param3" "param3 description" BIGINT
                  (VBigint 0)))
            _ eq_refl _ _).
  - compute_done.
  - done.
  - by vm_compute.
Defined.

(** "should throw if the provided argument is not valid" *)
Lemma resolveGlobalArguments_unparsed_string_aborts_witness :
  resolveGlobalArguments camelToSnakeCase parseMember ∅
    (objectLiteral {[ "param1" := "not a boolean" ]}) oneParam
  = Throws (HardhatThrown
              (INVALID_VALUE_FOR_TYPE (VString "not a boolean") "param1"
                 (Some BOOLEAN))).
Proof.
  refine (proj2 (resolveGlobalArguments_unparsed_string_aborts
                   camelToSnakeCase parseMember ∅
                   (objectLiteral {[ "param1" := "not a boolean" ]}) oneParam
                   "param1"
                   (GlobalParametersMapEntry.mk "plugin1"
                      (GlobalParameter.mk "param1" "param1 description" BOOLEAN
                         (VBoolean true)))
                   "not a boolean" _ eq_refl eq_refl)
            [] [] eq_refl _).
  - apply list_elem_of_here.
  - constructor.
Defined.

(** The parsing rules of the test-suite return values of the type they
    parse against. *)
Lemma parse_valid value type name v :
  parseParameterValue value type name = Ok v →
  isParameterValueValid type v = true.
Proof.
  unfold parseParameterValue. simpl.
  destruct (parse type value) as [v'|] eqn:Hparse; [|done].
  intros [= ->]. destruct type; unfold parse in Hparse; try done.
  - by injection Hparse as <-.
  - repeat case_decide; by simplify_eq.
  - destruct (dropBigintSuffix value); [done|].
    by apply fmap_Some in Hparse as (z & _ & ->).
  - by injection Hparse as <-.
Qed.

Lemma resolved_arguments_are_valid_witness :
  dom (resolved
         (resolveGlobalArguments camelToSnakeCase parseMember
            {[ "HARDHAT_PARAM3" := "5n" ]}
            (objectLiteral {[ "param1" := "false"; "param2" := "user" ]})
            threeParams))
  = list_to_set
      (declaredName <$> declarations [plugin "plugin1" [param1; param2; param3]])
    ∖ {["__proto__"]}
  ∧ ∀ name value,
      resolved
        (resolveGlobalArguments camelToSnakeCase parseMember
           {[ "HARDHAT_PARAM3" := "5n" ]}
           (objectLiteral {[ "param1" := "false"; "param2" := "user" ]})
           threeParams)
      !! name = Some value →
      ∃ entry v,
        Map_get threeParams name = Some entry
        ∧ value = Typed v
        ∧ isParameterValueValid
            (GlobalParameter.parameterType (GlobalParametersMapEntry.param entry))
            v = true.
Proof.
  apply (resolved_arguments_are_valid camelToSnakeCase parseMember
           [plugin "plugin1" [param1; param2; param3]] threeParams
           {[ "HARDHAT_PARAM3" := "5n" ]}
           (objectLiteral {[ "param1" := "false"; "param2" := "user" ]})).
  - apply parse_valid.
  - intros name member Hin.
    apply elem_of_cons in Hin as [->|Hin]; [by vm_compute|].
    apply elem_of_cons in Hin as [->|Hin]; [by vm_compute|].
    apply list_elem_of_singleton in Hin as ->. by vm_compute.
  - by vm_compute.
  - by vm_compute.
Defined.
End OnTheTestSuiteMore.
